(** * Map performance layer: cache manager, lazy loader, batch processor
      and their use by the optimized map renderer.

    Shallow embedding of [Dashboard/static/js/map-performance.js] and of
    the parts of [Dashboard/static/js/map-renderer.js] that consume it.

    Conventions of the embedding.
    - JavaScript numbers that the code uses as counters, indices, sizes
      and millisecond timestamps are integers ([Z] or [nat]); coordinates
      are rationals ([Q]).
    - [Date.now()] is an explicit argument of every operation that reads
      the clock, one argument per call site.
    - [Math.random()] is an oracle argument.
    - A computation that may raise returns a [completion]; a loop whose
      termination depends on its arguments takes fuel and returns [None]
      when the fuel runs out. *)

From stdpp Require Import gmap strings list pretty.
From Stdlib Require Import ZArith QArith Qround Lia Lqa.

Open Scope Z_scope.

(** ** Completions: a normal result or a raised exception. *)

Inductive completion (E T : Type) : Type :=
  | Normal (v : T)
  | Throw (e : E).
Arguments Normal {E T} v.
Arguments Throw {E T} e.

(** ** Events observable by the host while a batch is processed. *)

Inductive event : Type :=
  | EvYield (i : nat)
      (* [_yieldToMainThread()] awaited before chunk [i] *)
  | EvProgress (done total processed : nat).
      (* [onProgress((i + 1) / chunks.length, results.length)] *)

(** * CacheManager *)

Module Cache.

(** Object references. [setData] stores the caller's object itself, so
    the objects live in a heap shared by the cache and its callers.  An
    object maps property names to numbers; an absent property reads as
    [undefined].  [setData] is only ever given objects: class bodies
    are strict code, where [data.timestamp = ...] on anything else
    raises before the cache is touched. *)
Definition loc := positive.
Abbreviation obj := (gmap string Z).
Abbreviation heap := (gmap loc (gmap string Z)).

(** [o.f] *)
Definition heap_get (h : heap) (l : loc) (f : string) : option Z :=
  h !! l ≫= (fun o => o !! f).

(** [o.f = v] *)
Definition heap_set (h : heap) (l : loc) (f : string) (v : Z) : heap :=
  <[l := <[f := v]> (default ∅ (h !! l))]> h.

(** [now - ts < duration]; with [ts] undefined the difference is [NaN]
    and the comparison is false. *)
Definition fresh (now : Z) (ts : option Z) (duration : Z) : bool :=
  match ts with
  | Some t => now - t <? duration
  | None => false
  end.

(** [ts < cutoff], false when [ts] is undefined. *)
Definition stale (ts : option Z) (cutoff : Z) : bool :=
  match ts with
  | Some t => t <? cutoff
  | None => false
  end.

(** [{ instance: mapInstance, timestamp: Date.now() }] and
    [{ data: vizData, timestamp: Date.now() }]: wrappers made by the
    setters, never handed out. *)
Record map_entry (I : Type) : Type :=
  { instance : I; map_timestamp : Z }.
Record viz_entry (V : Type) : Type :=
  { data : V; viz_timestamp : Z }.
Arguments instance {I} _.
Arguments map_timestamp {I} _.
Arguments data {V} _.
Arguments viz_timestamp {V} _.

Record CacheManager (I V : Type) : Type := {
  dataCache : gmap string loc;
  mapCache : gmap string (map_entry I);
  visualizationCache : gmap string (viz_entry V);
  CACHE_DURATION : Z
}.
Arguments dataCache {I V} _.
Arguments mapCache {I V} _.
Arguments visualizationCache {I V} _.
Arguments CACHE_DURATION {I V} _.

Section Manager.
Context {I V : Type}.
Implicit Types (c : CacheManager I V) (h : heap) (key : string).

(** [constructor()] *)
Definition new : CacheManager I V :=
  {| dataCache := ∅; mapCache := ∅; visualizationCache := ∅;
     CACHE_DURATION := 5 * 60 * 1000 |}.

Definition with_dataCache c (m : gmap string loc) : CacheManager I V :=
  {| dataCache := m; mapCache := mapCache c;
     visualizationCache := visualizationCache c;
     CACHE_DURATION := CACHE_DURATION c |}.
Definition with_mapCache c (m : gmap string (map_entry I))
    : CacheManager I V :=
  {| dataCache := dataCache c; mapCache := m;
     visualizationCache := visualizationCache c;
     CACHE_DURATION := CACHE_DURATION c |}.
Definition with_visualizationCache c (m : gmap string (viz_entry V))
    : CacheManager I V :=
  {| dataCache := dataCache c; mapCache := mapCache c;
     visualizationCache := m;
     CACHE_DURATION := CACHE_DURATION c |}.

(** [cleanup()]: every entry of the three maps whose timestamp is
    below [now - CACHE_DURATION] is deleted. *)
Definition cleanup (now : Z) h c : CacheManager I V :=
  let cutoff := now - CACHE_DURATION c in
  {| dataCache :=
       filter (fun kv => stale (heap_get h kv.2 "timestamp") cutoff = false)
              (dataCache c);
     mapCache :=
       filter (fun kv => stale (Some (map_timestamp kv.2)) cutoff = false)
              (mapCache c);
     visualizationCache :=
       filter (fun kv => stale (Some (viz_timestamp kv.2)) cutoff = false)
              (visualizationCache c);
     CACHE_DURATION := CACHE_DURATION c |}.

(** [setData(key, data)]; [now] is the clock read for the timestamp,
    [now'] the one read by [cleanup]. *)
Definition setData (now now' : Z) key (data : loc) h c
    : heap * CacheManager I V :=
  let h' := heap_set h data "timestamp" now in
  let c' := with_dataCache c (<[key := data]> (dataCache c)) in
  (h', cleanup now' h' c').

(** [getData(key)]; [None] is [null]. *)
Definition getData (now : Z) key h c : option loc * CacheManager I V :=
  match dataCache c !! key with
  | Some data =>
      if fresh now (heap_get h data "timestamp") (CACHE_DURATION c)
      then (Some data, c)
      else (None, with_dataCache c (delete key (dataCache c)))
  | None => (None, c)
  end.

Definition setMapInstance (now : Z) key (mapInstance : I) c
    : CacheManager I V :=
  with_mapCache c
    (<[key := {| instance := mapInstance; map_timestamp := now |}]>
       (mapCache c)).

Definition getMapInstance (now : Z) key c : option I * CacheManager I V :=
  match mapCache c !! key with
  | Some cached =>
      if fresh now (Some (map_timestamp cached)) (CACHE_DURATION c)
      then (Some (instance cached), c)
      else (None, with_mapCache c (delete key (mapCache c)))
  | None => (None, c)
  end.

Definition setVisualization (now : Z) key (vizData : V) c
    : CacheManager I V :=
  with_visualizationCache c
    (<[key := {| data := vizData; viz_timestamp := now |}]>
       (visualizationCache c)).

Definition getVisualization (now : Z) key c
    : option V * CacheManager I V :=
  match visualizationCache c !! key with
  | Some cached =>
      if fresh now (Some (viz_timestamp cached)) (CACHE_DURATION c)
      then (Some (data cached), c)
      else (None,
            with_visualizationCache c (delete key (visualizationCache c)))
  | None => (None, c)
  end.

Definition clear c : CacheManager I V :=
  {| dataCache := ∅; mapCache := ∅; visualizationCache := ∅;
     CACHE_DURATION := CACHE_DURATION c |}.

(** No entry of any of the three maps is older than the duration. *)
Definition swept (now : Z) h c : Prop :=
  (forall key l t, dataCache c !! key = Some l ->
                   heap_get h l "timestamp" = Some t ->
                   now - t <= CACHE_DURATION c)
  /\ (forall key e, mapCache c !! key = Some e ->
                    now - map_timestamp e <= CACHE_DURATION c)
  /\ (forall key e, visualizationCache c !! key = Some e ->
                    now - viz_timestamp e <= CACHE_DURATION c).

End Manager.

End Cache.

(** * LazyLoader *)

Module Loader.

(** A promise returned by [_loadModuleFile] is identified by the rank
    of that call among all calls of [_loadModuleFile]. *)
Definition promise := nat.

Record LazyLoader : Type := {
  loadedModules : gset string;
  loadingPromises : gmap string promise
}.

(** The loader together with what the host sees of it: the script
    loads started so far, in order, and the bodies of [loadModule]
    suspended at [await loadPromise], each with the module name it
    will resume with. *)
Record world : Type := {
  loader : LazyLoader;
  fetches : list string;
  awaiting : gmap promise string
}.

(** [new LazyLoader()] in a host that has loaded nothing yet. *)
Definition init : world :=
  {| loader := {| loadedModules := ∅; loadingPromises := ∅ |};
     fetches := []; awaiting := ∅ |}.

(** What a call of [loadModule] hands to its caller. *)
Inductive answer : Type :=
  | Resolved               (* [Promise.resolve()] *)
  | Follows (p : promise)  (* [return this.loadingPromises.get(name)] *)
  | Awaits (p : promise).  (* the body suspended on its own fresh [p] *)

(** The promise, if any, that the caller's result depends on. *)
Definition pending_on (a : answer) : option promise :=
  match a with
  | Resolved => None
  | Follows p | Awaits p => Some p
  end.

(** [loadModule(moduleName)] up to its first suspension. *)
Definition loadModule (moduleName : string) (w : world) : answer * world :=
  let this := loader w in
  if decide (moduleName ∈ loadedModules this) then (Resolved, w)
  else
    match loadingPromises this !! moduleName with
    | Some p => (Follows p, w)
    | None =>
        let loadPromise := length (fetches w) in
        (Awaits loadPromise,
         {| loader :=
              {| loadedModules := loadedModules this;
                 loadingPromises :=
                   <[moduleName := loadPromise]> (loadingPromises this) |};
            fetches := fetches w ++ [moduleName];
            awaiting := <[loadPromise := moduleName]> (awaiting w) |})
    end.

(** The rest of [loadModule], run when [loadPromise] settles: the
    [try] branch after a load ([ok]), the [catch] branch after an
    error.  A promise settles once; nothing resumes for a promise
    nobody awaits. *)
Definition settle (p : promise) (ok : bool) (w : world) : world :=
  match awaiting w !! p with
  | None => w
  | Some moduleName =>
      let this := loader w in
      {| loader :=
           {| loadedModules :=
                if ok then {[moduleName]} ∪ loadedModules this
                else loadedModules this;
              loadingPromises := delete moduleName (loadingPromises this) |};
         fetches := fetches w;
         awaiting := delete p (awaiting w) |}
  end.

Inductive action : Type :=
  | Load (moduleName : string)
  | Settle (p : promise) (ok : bool).

Definition step (a : action) (w : world) : world :=
  match a with
  | Load moduleName => (loadModule moduleName w).2
  | Settle p ok => settle p ok w
  end.

Inductive reachable : world -> Prop :=
  | reachable_init : reachable init
  | reachable_step a w : reachable w -> reachable (step a w).

(** [n] calls of [loadModule(moduleName)] in a row, nothing settling
    in between: the answers, in call order, and the final world. *)
Fixpoint loadMany (n : nat) (moduleName : string) (w : world)
    : list answer * world :=
  match n with
  | O => ([], w)
  | S n' =>
      let '(a, w1) := loadModule moduleName w in
      let '(rest, w2) := loadMany n' moduleName w1 in
      (a :: rest, w2)
  end.

(** The loads of [moduleName] that are started and not settled. *)
Definition outstanding (moduleName : string) (w : world) : list promise :=
  filter (fun p => awaiting w !! p = Some moduleName)
         (map_to_list (awaiting w)).*1.

(** The marker and the suspended body go together; promises are
    ranks of past calls; a loaded module has no marker. *)
Definition consistent (w : world) : Prop :=
  (forall name p, loadingPromises (loader w) !! name = Some p
                  <-> awaiting w !! p = Some name)
  /\ (forall p name, awaiting w !! p = Some name ->
                     (p < length (fetches w))%nat)
  /\ (forall name, name ∈ loadedModules (loader w) ->
                   loadingPromises (loader w) !! name = None).

(** A whole history of calls and settlements. *)
Definition run (acts : list action) (w : world) : world :=
  foldl (fun w a => step a w) w acts.

(** How many script loads were started for [moduleName]. *)
Definition fetched (moduleName : string) (w : world) : nat :=
  length (filter (fun name => name = moduleName) (fetches w)).

(** The [switch] of [loadFeature]. *)
Definition feature_module (featureName : string) : option string :=
  if decide (featureName = "geocoder") then Some "mapbox-gl-geocoder"
  else if decide (featureName = "draw") then Some "mapbox-gl-draw"
  else if decide (featureName = "timeline") then Some "map-timeline"
  else if decide (featureName = "ai-analysis") then Some "map-ai-analysis"
  else None.

Inductive feature_answer : Type :=
  | FeatureLoad (a : answer)
  | FeatureUnknown (warning : string).  (* [console.warn], then [undefined] *)

(** [loadFeature(featureName)] up to its first suspension. *)
Definition loadFeature (featureName : string) (w : world)
    : feature_answer * world :=
  match feature_module featureName with
  | Some moduleName =>
      let '(a, w') := loadModule moduleName w in (FeatureLoad a, w')
  | None => (FeatureUnknown ("Unknown feature: " +:+ featureName), w)
  end.

(** A burst of [loadFeature] calls, nothing settling in between. *)
Definition loadFeatures (featureNames : list string) (w : world) : world :=
  foldl (fun w featureName => (loadFeature featureName w).2) w featureNames.

(** Every awaited promise is the promise of a script load of the name
    it is awaited for, and every loaded module was fetched. *)
Definition accounted (w : world) : Prop :=
  (forall p name, awaiting w !! p = Some name -> fetches w !! p = Some name)
  /\ (forall name, name ∈ loadedModules (loader w) -> name ∈ fetches w).

End Loader.

(** * BatchProcessor *)

Module Batch.

(** [this.chunkSize]; [isProcessing] and [queue] are never read. *)
Record BatchProcessor : Type := {
  isProcessing : bool;
  chunkSize : Z
}.

(** [constructor()] *)
Definition new : BatchProcessor :=
  {| isProcessing := false; chunkSize := 1000 |}.

(** What a caller may put in [options.chunkSize]: a number, or one of
    the non-numeric falsy values. *)
Inductive chunk_arg : Type :=
  | ArgUndefined | ArgNull | ArgFalse | ArgNaN | ArgEmptyString
  | ArgNum (n : Z).

Definition falsy (a : chunk_arg) : bool :=
  match a with
  | ArgNum n => n =? 0
  | _ => true
  end.

(** [options.chunkSize || this.chunkSize] *)
Definition or_default (a : chunk_arg) (d : Z) : Z :=
  match a with
  | ArgNum n => if n =? 0 then d else n
  | _ => d
  end.

Record options : Type := {
  opt_chunkSize : chunk_arg;
  onProgress : bool            (* is a progress callback supplied? *)
}.

(** [Array.prototype.slice(start, end)]: negative arguments count from
    the end, both are clamped to the array. *)
Definition rel_index (len k : Z) : Z :=
  if k <? 0 then Z.max (len + k) 0 else Z.min k len.

Definition slice {A} (array : list A) (start end_ : Z) : list A :=
  let len := Z.of_nat (length array) in
  let k := rel_index len start in
  let final := rel_index len end_ in
  take (Z.to_nat (final - k)) (drop (Z.to_nat k) array).

Section Processor.
Context {A B E : Type}.

(** [for (let i = 0; i < array.length; i += size)
       chunks.push(array.slice(i, i + size))] *)
Fixpoint createChunks_loop (fuel : nat) (array : list A) (size i : Z)
    (chunks : list (list A)) : option (list (list A)) :=
  match fuel with
  | O => None
  | S fuel' =>
      if i <? Z.of_nat (length array)
      then createChunks_loop fuel' array size (i + size)
             (chunks ++ [slice array i (i + size)])
      else Some chunks
  end.

Definition _createChunks (fuel : nat) (array : list A) (size : Z)
    : option (list (list A)) :=
  createChunks_loop fuel array size 0 [].

(** The [for] loop of [processBatch], from chunk index [i] on;
    [chunks] holds [chunks[i..]], [total] is [chunks.length]. *)
Fixpoint processBatch_loop (processor : list A -> completion E (list B))
    (progress : bool) (total i : nat) (chunks : list (list A))
    (results : list B) : list event * completion E (list B) :=
  match chunks with
  | [] => ([], Normal results)
  | chunk :: rest =>
      let yielded :=
        if ((0 <? i)%nat && (i mod 10 =? 0)%nat)%bool
        then [EvYield i] else [] in
      match processor chunk with
      | Throw e => (yielded, Throw e)
      | Normal chunkResults =>
          let results' := results ++ chunkResults in
          let reported :=
            if progress
            then [EvProgress (S i) total (length results')] else [] in
          let '(tr, r) :=
            processBatch_loop processor progress total (S i) rest results' in
          (yielded ++ reported ++ tr, r)
      end
  end.

Definition processBatch (fuel : nat) (this : BatchProcessor)
    (items : list A) (processor : list A -> completion E (list B))
    (opts : options) : option (list event * completion E (list B)) :=
  let chunkSize := or_default (opt_chunkSize opts) (chunkSize this) in
  match _createChunks fuel items chunkSize with
  | None => None
  | Some chunks =>
      Some (processBatch_loop processor (onProgress opts)
              (length chunks) 0 chunks [])
  end.

(** [processLargeDataset(data, processor)] *)
Definition processLargeDataset (fuel : nat) (this : BatchProcessor)
    (data : list A) (processor : list A -> completion E (list B))
    : option (list event * completion E (list B)) :=
  if 10000 <? Z.of_nat (length data)
  then processBatch fuel this data processor
         {| opt_chunkSize := ArgNum 1000; onProgress := true |}
  else Some ([], processor data).

End Processor.

Definition yields (tr : list event) : list nat :=
  omap (fun ev => match ev with EvYield i => Some i | _ => None end) tr.

(** The arguments of the calls of [onProgress], in call order: chunks
    done, chunks in all (the quotient of the two is the fraction the
    callback receives) and [results.length]. *)
Definition reports (tr : list event) : list (nat * nat * nat) :=
  omap (fun ev => match ev with
                  | EvProgress d t n => Some (d, t, n)
                  | _ => None
                  end) tr.

End Batch.

(** * OptimizedMapRenderer *)

Module Renderer.

(** [{ lat, lon }] *)
Record point : Type := { lat : Q; lon : Q }.

Inductive properties : Type :=
  | MarkerProperties (id activity : nat)
  | HeatProperties (intensity : nat).

(** A GeoJSON point feature; [coordinates] is [[lon, lat]]. *)
Record feature : Type := {
  coordinates : Q * Q;
  feature_properties : properties
}.

Record source : Type := { features : list feature; cluster : bool }.

Record layer : Type := {
  layer_id : string;
  layer_type : string;
  layer_source : string
}.

Inductive exn : Type :=
  | TypeError (msg : string)
  | BackendError (msg : string).

(** The descriptors stored in the visualization cache. *)
Inductive visualization : Type :=
  | Viz (sourceId layerId type_ : string)
  | VizLayers (sourceId : string) (layerIds : list string) (type_ : string).

Definition viz_type (v : visualization) : string :=
  match v with
  | Viz _ _ t | VizLayers _ _ t => t
  end.

(** What a render leaves behind, in order: console output, calls of
    [logPerformanceIssue], calls made on the map, batch events. *)
Inductive effect : Type :=
  | ConsoleLog (msg : string) (args : list nat)
  | ConsoleWarn (msg : string) (e : exn)
  | ConsoleError (msg : string) (e : exn)
  | PerformanceIssue (issue : string) (details : exn)
  | CallRemoveLayer (id : string)
  | CallRemoveSource (id : string)
  | CallAddSource (id : string) (src : source)
  | CallAddLayer (l : layer)
  | BatchEvent (ev : event).

(** The rendering backend ([mapboxgl.Map]), as far as the renderer
    drives it.  A call returns the error it raised, if any, and the
    map as the call left it. *)
Class MapBackend (M : Type) : Type := {
  getLayer : string -> M -> bool;
  getSource : string -> M -> bool;
  removeLayer : string -> M -> option exn * M;
  removeSource : string -> M -> option exn * M;
  addSource : string -> source -> M -> option exn * M;
  addLayer : layer -> M -> option exn * M
}.

(** The [options] argument of the render methods: [JSON.stringify]
    of it and its [maxPoints] property ([None] when absent). *)
Class RenderOptions (O : Type) : Type := {
  stringify : O -> string;
  maxPointsOf : O -> option nat
}.

(** [options.maxPoints || dflt] *)
Definition maxPoints_or {O} {opts : RenderOptions O} (options : O) (dflt : nat)
    : nat :=
  match maxPointsOf options with
  | Some (S n) => S n
  | _ => dflt
  end.

Record OptimizedMapRenderer (M : Type) : Type := {
  map : option M;                     (* [null] until [initialize] *)
  layers : gmap string visualization;
  cacheManager : Cache.CacheManager unit visualization;
  batchProcessor : Batch.BatchProcessor;
  trace : list effect
}.
Arguments map {M} _.
Arguments layers {M} _.
Arguments cacheManager {M} _.
Arguments batchProcessor {M} _.
Arguments trace {M} _.

(** [array[j] = x]: in range the element is replaced; out of range the
    array grows, the gap reading as [undefined]. *)
Definition array_set {A} (j : nat) (x : option A) (array : list (option A))
    : list (option A) :=
  if (j <? length array)%nat then <[j := x]> array
  else array ++ replicate (j - length array) None ++ [x].

(** The loop of [_samplePoints]; [rest] holds [points[i..]], and
    [rnd i] is the draw [Math.floor(Math.random() * (i + 1))]. *)
Fixpoint samplePoints_loop {A} (rnd : nat -> nat) (maxPoints : nat)
    (rest : list (option A)) (i : nat) (sampled : list (option A))
    : list (option A) :=
  match rest with
  | [] => sampled
  | p :: rest' =>
      if (length sampled <? maxPoints)%nat then
        let sampled' :=
          if (i <? maxPoints)%nat then sampled ++ [p]
          else
            let j := rnd i in
            if (j <? maxPoints)%nat then array_set j p sampled
            else sampled in
        samplePoints_loop rnd maxPoints rest' (S i) sampled'
      else sampled
  end.

Definition _samplePoints {A} (rnd : nat -> nat) (points : list (option A))
    (maxPoints : nat) : list (option A) :=
  if (length points <=? maxPoints)%nat then points
  else samplePoints_loop rnd maxPoints points 0 [].

(** [points.map((point, index) => make(index, point))]: reading
    [point.lon] of an element that is [null] or [undefined] raises. *)
Fixpoint mapPoints (make : nat -> point -> feature) (index : nat)
    (points : list (option point)) : completion exn (list feature) :=
  match points with
  | [] => Normal []
  | None :: _ =>
      Throw (TypeError "Cannot read properties of undefined (reading 'lon')")
  | Some point :: rest =>
      match mapPoints make (S index) rest with
      | Normal fs => Normal (make index point :: fs)
      | Throw e => Throw e
      end
  end.

(** The feature built for a marker or cluster point; [act index] is
    the draw [Math.floor(Math.random() * 100) + 1]. *)
Definition markerFeature (act : nat -> nat) (index : nat) (point : point)
    : feature :=
  {| coordinates := (lon point, lat point);
     feature_properties := MarkerProperties index (act index) |}.

Definition heatFeature (point : point) : feature :=
  {| coordinates := (lon point, lat point);
     feature_properties := HeatProperties 1 |}.

Definition _prepareHeatmapData (points : list (option point))
    : completion exn (list feature) :=
  mapPoints (fun _ => heatFeature) 0 points.

Section Render.
Context {M O : Type} {backend : MapBackend M} {opts : RenderOptions O}.

Abbreviation renderer := (OptimizedMapRenderer M).

(** Statements of a method body: they read and change the renderer
    and may raise. *)
Definition action (A : Type) : Type :=
  renderer -> completion exn A * renderer.

Definition ret {A} (x : A) : action A := fun r => (Normal x, r).
Definition raise {A} (e : exn) : action A := fun r => (Throw e, r).
Definition bind {A B} (m : action A) (k : A -> action B) : action B :=
  fun r =>
    match m r with
    | (Normal x, r') => k x r'
    | (Throw e, r') => (Throw e, r')
    end.
(** [try { body } catch (error) { handler(error) }] *)
Definition try_catch {A} (body : action A) (handler : exn -> action A)
    : action A :=
  fun r =>
    match body r with
    | (Normal x, r') => (Normal x, r')
    | (Throw e, r') => handler e r'
    end.

Definition emit (e : effect) : action unit :=
  fun r =>
    (Normal tt,
     {| map := map r; layers := layers r; cacheManager := cacheManager r;
        batchProcessor := batchProcessor r; trace := trace r ++ [e] |}).

Definition set_map (m : M) : action unit :=
  fun r =>
    (Normal tt,
     {| map := Some m; layers := layers r; cacheManager := cacheManager r;
        batchProcessor := batchProcessor r; trace := trace r |}).

Definition set_cache (c : Cache.CacheManager unit visualization)
    : action unit :=
  fun r =>
    (Normal tt,
     {| map := map r; layers := layers r; cacheManager := c;
        batchProcessor := batchProcessor r; trace := trace r |}).

Definition set_layers (l : gmap string visualization) : action unit :=
  fun r =>
    (Normal tt,
     {| map := map r; layers := l; cacheManager := cacheManager r;
        batchProcessor := batchProcessor r; trace := trace r |}).

Definition get : action renderer := fun r => (Normal r, r).

#[export] Instance action_bind : MBind action :=
  fun A B k m => bind m k.
#[export] Instance action_ret : MRet action := fun A x => ret x.

(** [_removeLayer(layerId)]: an error of [removeLayer] is caught
    and reported with [console.warn]. *)
Definition _removeLayer (layerId : string) : action unit :=
  r ← get;
  match map r with
  | None => ret tt
  | Some m =>
      if getLayer layerId m then
        emit (CallRemoveLayer layerId) ;;
        let '(err, m') := removeLayer layerId m in
        set_map m' ;;
        match err with
        | Some e => emit (ConsoleWarn "Failed to remove layer" e)
        | None => ret tt
        end
      else ret tt
  end.

Definition _removeSource (sourceId : string) : action unit :=
  r ← get;
  match map r with
  | None => ret tt
  | Some m =>
      if getSource sourceId m then
        emit (CallRemoveSource sourceId) ;;
        let '(err, m') := removeSource sourceId m in
        set_map m' ;;
        match err with
        | Some e => emit (ConsoleWarn "Failed to remove source" e)
        | None => ret tt
        end
      else ret tt
  end.

(** [this.map.addSource(id, src)] *)
Definition map_addSource (id : string) (src : source) : action unit :=
  r ← get;
  match map r with
  | None =>
      raise (TypeError "Cannot read properties of null (reading 'addSource')")
  | Some m =>
      emit (CallAddSource id src) ;;
      let '(err, m') := addSource id src m in
      set_map m' ;;
      match err with
      | Some e => raise e
      | None => ret tt
      end
  end.

(** [this.map.addLayer(l)] *)
Definition map_addLayer (l : layer) : action unit :=
  r ← get;
  match map r with
  | None =>
      raise (TypeError "Cannot read properties of null (reading 'addLayer')")
  | Some m =>
      emit (CallAddLayer l) ;;
      let '(err, m') := addLayer l m in
      set_map m' ;;
      match err with
      | Some e => raise e
      | None => ret tt
      end
  end.

(** [this.cacheManager.getVisualization(cacheKey)] *)
Definition cache_get (now : Z) (cacheKey : string)
    : action (option visualization) :=
  r ← get;
  let '(cached, c) := Cache.getVisualization now cacheKey (cacheManager r) in
  set_cache c ;; ret cached.

(** [this.cacheManager.setVisualization(cacheKey, visualization)] *)
Definition cache_set (now : Z) (cacheKey : string) (v : visualization)
    : action unit :=
  r ← get;
  set_cache (Cache.setVisualization now cacheKey v (cacheManager r)).

Definition _applyCachedVisualization (v : visualization) : action unit :=
  emit (ConsoleLog ("Applying cached visualization: " +:+ viz_type v) []).

Definition lift {A} (c : completion exn A) : action A :=
  fun r => (c, r).

(** The [catch] blocks of the render methods. *)
Definition report (msg issue : string) (error : exn) : action unit :=
  emit (ConsoleError msg error) ;;
  emit (PerformanceIssue issue error).

(** The [try] block of [renderMarkers]. *)
Definition renderMarkers_body (now : Z) (rnd act : nat -> nat)
    (cacheKey : string) (points : list (option point)) (options : O)
    : action unit :=
  let maxPoints := maxPoints_or options 5000 in
  let displayPoints :=
    if (maxPoints <? length points)%nat
    then _samplePoints rnd points maxPoints else points in
  (if (maxPoints <? length points)%nat
   then emit (ConsoleLog "Rendering markers for performance"
                [maxPoints; length points])
   else ret tt) ;;
  let sourceId := "markers-source" in
  let layerId := "markers-layer" in
  _removeLayer layerId ;;
  _removeSource sourceId ;;
  features ← lift (mapPoints (markerFeature act) 0 displayPoints);
  map_addSource sourceId {| features := features; cluster := false |} ;;
  map_addLayer {| layer_id := layerId; layer_type := "circle";
                  layer_source := sourceId |} ;;
  cache_set now cacheKey (Viz sourceId layerId "markers") ;;
  emit (ConsoleLog "Markers rendered" [length displayPoints]).

(** [renderMarkers(points, options)]; [now] and [now'] are the clock
    readings of the cache lookup and of the cache write. *)
Definition renderMarkers (now now' : Z) (rnd act : nat -> nat)
    (points : list (option point)) (options : O) : action unit :=
  let cacheKey := "markers_" +:+ stringify options in
  cached ← cache_get now cacheKey;
  match cached with
  | Some v => _applyCachedVisualization v
  | None =>
      try_catch
        (renderMarkers_body now' rnd act cacheKey points options)
        (report "Failed to render markers:" "Marker rendering failed")
  end.

(** The [try] block of [renderClusters]. *)
Definition renderClusters_body (now : Z) (rnd act : nat -> nat)
    (cacheKey : string) (points : list (option point)) (options : O)
    : action unit :=
  let maxPoints := maxPoints_or options (Z.to_nat 10000) in
  let displayPoints :=
    if (maxPoints <? length points)%nat
    then _samplePoints rnd points maxPoints else points in
  (if (maxPoints <? length points)%nat
   then emit (ConsoleLog "Clustering points for performance"
                [maxPoints; length points])
   else ret tt) ;;
  let sourceId := "clusters-source" in
  let layerId := "clusters-layer" in
  let countLayerId := "cluster-count-layer" in
  _removeLayer layerId ;;
  _removeLayer countLayerId ;;
  _removeSource sourceId ;;
  features ← lift (mapPoints (markerFeature act) 0 displayPoints);
  map_addSource sourceId {| features := features; cluster := true |} ;;
  map_addLayer {| layer_id := layerId; layer_type := "circle";
                  layer_source := sourceId |} ;;
  map_addLayer {| layer_id := countLayerId; layer_type := "symbol";
                  layer_source := sourceId |} ;;
  let unclusteredLayerId := "unclustered-points" in
  _removeLayer unclusteredLayerId ;;
  map_addLayer {| layer_id := unclusteredLayerId; layer_type := "circle";
                  layer_source := sourceId |} ;;
  cache_set now cacheKey
    (VizLayers sourceId [layerId; countLayerId; unclusteredLayerId]
       "clusters") ;;
  emit (ConsoleLog "Clusters rendered" [length displayPoints]).

Definition renderClusters (now now' : Z) (rnd act : nat -> nat)
    (points : list (option point)) (options : O) : action unit :=
  let cacheKey := "clusters_" +:+ stringify options in
  cached ← cache_get now cacheKey;
  match cached with
  | Some v => _applyCachedVisualization v
  | None =>
      try_catch
        (renderClusters_body now' rnd act cacheKey points options)
        (report "Failed to render clusters:" "Cluster rendering failed")
  end.

(** The outcome of [await this.batchProcessor.processLargeDataset(points,
    chunk => this._prepareHeatmapData(chunk))] as a statement: the batch
    events go to the trace. *)
Definition batch_outcome (events : list event)
    (result : completion exn (list feature)) : action (list feature) :=
  fun r =>
    (result,
     {| map := map r; layers := layers r; cacheManager := cacheManager r;
        batchProcessor := batchProcessor r;
        trace := trace r ++ (BatchEvent <$> events) |}).

(** The [try] block of [renderHeatmap], after the batch. *)
Definition renderHeatmap_rest (now : Z) (cacheKey : string)
    (processedPoints : list feature) : action unit :=
  let sourceId := "heatmap-source" in
  let layerId := "heatmap-layer" in
  _removeLayer layerId ;;
  _removeSource sourceId ;;
  map_addSource sourceId
    {| features := processedPoints;
       cluster := (1000 <? length processedPoints)%nat |} ;;
  map_addLayer {| layer_id := layerId; layer_type := "heatmap";
                  layer_source := sourceId |} ;;
  let visualization := Viz sourceId layerId "heatmap" in
  cache_set now cacheKey visualization ;;
  r ← get;
  set_layers (<[layerId := visualization]> (layers r)) ;;
  emit (ConsoleLog "Heatmap rendered" [length processedPoints]).

(** [renderHeatmap(points, options)]; [None] when the fuel does not
    suffice for the batch. *)
Definition renderHeatmap (fuel : nat) (now now' : Z)
    (points : list (option point)) (options : O) (r : renderer)
    : option (completion exn unit * renderer) :=
  let cacheKey := "heatmap_" +:+ stringify options in
  match cache_get now cacheKey r with
  | (Throw e, r0) => Some (Throw e, r0)
  | (Normal (Some v), r0) => Some (_applyCachedVisualization v r0)
  | (Normal None, r0) =>
      match Batch.processLargeDataset fuel (batchProcessor r0) points
              _prepareHeatmapData with
      | None => None
      | Some (events, result) =>
          Some (try_catch
                  (processedPoints ← batch_outcome events result;
                   renderHeatmap_rest now' cacheKey processedPoints)
                  (report "Failed to render heatmap:" "Heatmap rendering failed")
                  r0)
      end
  end.

(** [list.forEach(f)], also the [for ... of] loops: the statements run
    in order and the first error ends the loop. *)
Fixpoint for_each {A} (f : A -> action unit) (l : list A) : action unit :=
  match l with
  | [] => ret tt
  | x :: l' => f x ;; for_each f l'
  end.

(** [clearVisualizationLayers()].  The entries of [this.layers] are
    visited in the order of [map_to_list]; a descriptor with a [layers]
    array has each of its layers removed, any other one the layer named
    by its key.  [this.sources] is created empty and no method of the
    class writes it, so the loop over its keys runs zero times and the
    renderer does not carry the field. *)
Definition clearVisualizationLayers : action unit :=
  r ← get;
  for_each
    (fun entry : string * visualization =>
       match entry.2 with
       | VizLayers _ layerIds _ => for_each _removeLayer layerIds
       | Viz _ _ _ => _removeLayer entry.1
       end)
    (map_to_list (layers r)) ;;
  set_layers ∅.

(** The effect is a source or a layer handed to the map. *)
Definition adds_to_map (e : effect) : bool :=
  match e with
  | CallAddSource _ _ | CallAddLayer _ => true
  | _ => false
  end.

(** On an initialized renderer the statement completes and changes
    neither the cache nor the registered layers, and the renderer stays
    initialized. *)
Definition steady (a : action unit) : Prop :=
  forall r, is_Some (map r) ->
            (a r).1 = Normal tt
            /\ is_Some (map (a r).2)
            /\ cacheManager (a r).2 = cacheManager r
            /\ layers (a r).2 = layers r.

(** The statement completes on every renderer, hands nothing to the
    map, leaves the cache and the registered layers alone and the map
    as initialized as it was, and does nothing at all without a map. *)
Definition quiet (a : action unit) : Prop :=
  forall r,
    (a r).1 = Normal tt
    /\ cacheManager (a r).2 = cacheManager r
    /\ layers (a r).2 = layers r
    /\ (is_Some (map (a r).2) <-> is_Some (map r))
    /\ (map r = None -> (a r).2 = r)
    /\ exists t, trace (a r).2 = trace r ++ t
                 /\ Forall (fun e => adds_to_map e = false) t.

(** The renderer after one more console line. *)
Definition logged (r : renderer) (line : effect) : renderer :=
  {| map := map r; layers := layers r; cacheManager := cacheManager r;
     batchProcessor := batchProcessor r; trace := trace r ++ [line] |}.

(** Properties of statements used to reason about method bodies. *)

(** The statement only adds to the trace. *)
Definition appends {A} (a : action A) : Prop :=
  forall r, exists t, trace (a r).2 = trace r ++ t.

(** The statement never raises. *)
Definition returns_normally (a : action unit) : Prop :=
  forall r, (a r).1 = Normal tt.

(** On an initialized renderer the statement completes and leaves
    the renderer initialized. *)
Definition keeps_map (a : action unit) : Prop :=
  forall r, is_Some (map r) ->
            (a r).1 = Normal tt
            /\ is_Some (map (a r).2)
            /\ cacheManager (a r).2 = cacheManager r.

End Render.

(** ** Concrete hosts for the examples *)

(** A map that accepts every call and holds nothing to remove. *)
Definition accepting : MapBackend unit :=
  {| getLayer := fun _ _ => false;
     getSource := fun _ _ => false;
     removeLayer := fun _ m => (None, m);
     removeSource := fun _ m => (None, m);
     addSource := fun _ _ m => (None, m);
     addLayer := fun _ m => (None, m) |}.



(** Options of the shape [{}] or [{ maxPoints: n }]. *)
Definition dquote : string := String (Ascii.ascii_of_nat 34) EmptyString.

#[global] Instance maxPoints_options : RenderOptions (option nat) :=
  {| stringify := fun o =>
       match o with
       | None => "{}"
       | Some n => "{" +:+ dquote +:+ "maxPoints" +:+ dquote +:+ ":"
                   +:+ pretty n +:+ "}"
       end;
     maxPointsOf := fun o => o |}.

(** [new OptimizedMapRenderer(mapboxgl)], then [this.map = m]. *)
Definition fresh_renderer {M} (m : option M) : OptimizedMapRenderer M :=
  {| map := m; layers := ∅; cacheManager := Cache.new;
     batchProcessor := Batch.new; trace := [] |}.

(** The two points of the coordinate example. *)
Definition mumbai : point := {| lat := 1907 # 100; lon := 7287 # 100 |}.
Definition off_the_globe : point := {| lat := 95; lon := 10 |}.


(** Algorithm R as the comment in [_samplePoints] announces it: the
    scan goes on to the end of the input, and every element past the
    first [maxPoints] replaces a random slot. *)
Fixpoint reservoir_loop {A} (rnd : nat -> nat) (maxPoints : nat)
    (rest : list (option A)) (i : nat) (sampled : list (option A))
    : list (option A) :=
  match rest with
  | [] => sampled
  | p :: rest' =>
      let sampled' :=
        if (i <? maxPoints)%nat then sampled ++ [p]
        else
          let j := rnd i in
          if (j <? maxPoints)%nat then array_set j p sampled
          else sampled in
      reservoir_loop rnd maxPoints rest' (S i) sampled'
  end.

Definition reservoir_sampling {A} (rnd : nat -> nat)
    (points : list (option A)) (maxPoints : nat) : list (option A) :=
  reservoir_loop rnd maxPoints points 0 [].

End Renderer.

(** * PerformanceMonitor *)

Module Monitor.

(** [Math.round]: the nearest integer, a half going up. *)
Definition round (x : Q) : Z := Qfloor (x + (1 # 2)).

(** The fields of a monitor; the first four are [this.metrics].  Times
    come from [performance.now()] and are fractional. *)
Record PerformanceMonitor : Type := {
  fps : Z;
  memory : Z;
  loadTime : Q;
  renderTime : Q;
  frameCount : Z;
  lastTime : Q;
  fpsHistory : list Z;
  isMonitoring : bool
}.

(** [constructor()], with the clock reading it takes. *)
Definition new (now : Q) : PerformanceMonitor :=
  {| fps := 0; memory := 0; loadTime := 0; renderTime := 0;
     frameCount := 0; lastTime := now; fpsHistory := [];
     isMonitoring := false |}.

(** The monitor in its host: the callbacks handed to
    [requestAnimationFrame] and not yet run, the intervals created with
    [setInterval] (none is ever cleared), and the console. *)
Record host : Type := {
  monitor : PerformanceMonitor;
  frames : nat;
  timers : nat;
  console : list string
}.

Definition boot (now : Q) : host :=
  {| monitor := new now; frames := 0; timers := 0; console := [] |}.

Definition with_monitor (w : host) (m : PerformanceMonitor) : host :=
  {| monitor := m; frames := frames w; timers := timers w;
     console := console w |}.

(** [monitorFPS()] *)
Definition monitorFPS (now : Q) (w : host) : host :=
  let this := monitor w in
  if negb (isMonitoring this) then w
  else
    let frameCount' := (frameCount this + 1)%Z in
    let this' :=
      if Qle_bool 1000 (now - lastTime this) then
        let fps' :=
          round (inject_Z frameCount' * 1000 / (now - lastTime this)) in
        let pushed := fpsHistory this ++ [fps'] in
        {| fps := fps'; memory := memory this; loadTime := loadTime this;
           renderTime := renderTime this;
           frameCount := 0; lastTime := now;
           fpsHistory :=
             if (60 <? length pushed)%nat then drop 1 pushed else pushed;
           isMonitoring := isMonitoring this |}
      else
        {| fps := fps this; memory := memory this; loadTime := loadTime this;
           renderTime := renderTime this;
           frameCount := frameCount'; lastTime := lastTime this;
           fpsHistory := fpsHistory this;
           isMonitoring := isMonitoring this |} in
    {| monitor := this'; frames := S (frames w); timers := timers w;
       console := console w |}.

(** [monitorMemory()]; [has_memory] tells whether the host offers
    [performance.memory]. *)
Definition monitorMemory (has_memory : bool) (w : host) : host :=
  if negb (isMonitoring (monitor w)) || negb has_memory then w
  else {| monitor := monitor w; frames := frames w; timers := S (timers w);
          console := console w |}.

Definition set_monitoring (b : bool) (this : PerformanceMonitor)
    : PerformanceMonitor :=
  {| fps := fps this; memory := memory this; loadTime := loadTime this;
     renderTime := renderTime this; frameCount := frameCount this;
     lastTime := lastTime this; fpsHistory := fpsHistory this;
     isMonitoring := b |}.

Definition log (msg : string) (w : host) : host :=
  {| monitor := monitor w; frames := frames w; timers := timers w;
     console := console w ++ [msg] |}.

(** [startMonitoring()] *)
Definition startMonitoring (now : Q) (has_memory : bool) (w : host) : host :=
  if isMonitoring (monitor w) then w
  else
    log "Performance monitoring started"
      (monitorMemory has_memory
         (monitorFPS now (with_monitor w (set_monitoring true (monitor w))))).

(** [stopMonitoring()] *)
Definition stopMonitoring (w : host) : host :=
  log "Performance monitoring stopped"
    (with_monitor w (set_monitoring false (monitor w))).

(** The host runs one of the pending animation-frame callbacks. *)
Definition frame_fires (now : Q) (w : host) : host :=
  match frames w with
  | O => w
  | S n =>
      monitorFPS now
        {| monitor := monitor w; frames := n; timers := timers w;
           console := console w |}
  end.

(** One of the intervals fires: [this.metrics.memory =
    Math.round(performance.memory.usedJSHeapSize / 1024 / 1024)]. *)
Definition timer_fires (usedJSHeapSize : Z) (w : host) : host :=
  match timers w with
  | O => w
  | S _ =>
      let this := monitor w in
      with_monitor w
        {| fps := fps this;
           memory := round (inject_Z usedJSHeapSize / 1024 / 1024);
           loadTime := loadTime this; renderTime := renderTime this;
           frameCount := frameCount this; lastTime := lastTime this;
           fpsHistory := fpsHistory this;
           isMonitoring := isMonitoring this |}
  end.

(** [measureLoadTime(startTime)] *)
Definition measureLoadTime (startTime now : Q) (this : PerformanceMonitor)
    : PerformanceMonitor :=
  {| fps := fps this; memory := memory this; loadTime := now - startTime;
     renderTime := renderTime this; frameCount := frameCount this;
     lastTime := lastTime this; fpsHistory := fpsHistory this;
     isMonitoring := isMonitoring this |}.


(** [this.fpsHistory.reduce((a, b) => a + b)] on a non-empty array. *)
Definition sum (l : list Z) : Z := foldr Z.add 0%Z l.

Record metrics : Type := {
  m_fps : Z; m_memory : Z; m_loadTime : Q; m_renderTime : Q; avgFps : Z
}.

(** [getMetrics()] *)
Definition getMetrics (this : PerformanceMonitor) : metrics :=
  {| m_fps := fps this; m_memory := memory this;
     m_loadTime := loadTime this; m_renderTime := renderTime this;
     avgFps :=
       if (0 <? length (fpsHistory this))%nat
       then round (inject_Z (sum (fpsHistory this))
                   / inject_Z (Z.of_nat (length (fpsHistory this))))
       else 0 |}.

Inductive action : Type :=
  | Start (now : Q) (has_memory : bool)
  | Stop
  | Frame (now : Q)
  | Timer (usedJSHeapSize : Z).

Definition step (a : action) (w : host) : host :=
  match a with
  | Start now has_memory => startMonitoring now has_memory w
  | Stop => stopMonitoring w
  | Frame now => frame_fires now w
  | Timer used => timer_fires used w
  end.

Definition run (acts : list action) (w : host) : host :=
  foldl (fun w a => step a w) w acts.

(** What every history keeps: at most sixty samples, none negative, and
    a frame count that is not negative. *)
Definition bounded (this : PerformanceMonitor) : Prop :=
  (length (fpsHistory this) <= 60)%nat
  /\ Forall (fun sample => (0 <= sample)%Z) (fpsHistory this)
  /\ (0 <= frameCount this)%Z.

End Monitor.

(** * The renderer with its monitor *)

Module App.
Import Renderer.

(** An [OptimizedMapRenderer] together with the monitor its constructor
    creates. *)
Record app (M : Type) : Type := {
  core : OptimizedMapRenderer M;
  performanceMonitor : Monitor.host
}.
Arguments core {M} _.
Arguments performanceMonitor {M} _.

Section Methods.
Context {M O : Type} {backend : MapBackend M} {opts : RenderOptions O}.



(** [dispose()]; [remove] is [this.map.remove()], which returns the
    error it raises, if any. *)
Definition dispose (remove : M -> option exn) (a : app M)
    : completion exn unit * app M :=
  let r := core a in
  let removed :=
    match map r with
    | None => Normal r
    | Some m =>
        match remove m with
        | Some e => Throw e
        | None =>
            Normal {| map := None; layers := layers r;
                      cacheManager := cacheManager r;
                      batchProcessor := batchProcessor r;
                      trace := trace r |}
        end
    end in
  match removed with
  | Throw e => (Throw e, a)
  | Normal r1 =>
      let r2 := (clearVisualizationLayers r1).2 in
      (Normal tt,
       {| core :=
            {| map := map r2; layers := layers r2;
               cacheManager := Cache.clear (cacheManager r2);
               batchProcessor := batchProcessor r2; trace := trace r2 |};
          performanceMonitor :=
            Monitor.stopMonitoring (performanceMonitor a) |})
  end.

End Methods.

End App.

(** * Facts about the batch processor *)

Section BatchFacts.
Import Batch.
Context {A B E : Type}.
Implicit Types (array items : list A) (size : Z) (fuel : nat).

Lemma slice_window array size (i : Z) :
  0 <= i < Z.of_nat (length array) -> 1 <= size ->
  slice array i (i + size) =
    take (Z.to_nat size) (drop (Z.to_nat i) array).
Proof.
  intros Hi Hs. unfold slice, rel_index.
  destruct (Z.ltb_spec i 0); [lia|].
  destruct (Z.ltb_spec (i + size) 0); [lia|].
  rewrite (Z.min_l i) by lia.
  destruct (Z.le_ge_cases (i + size) (Z.of_nat (length array))).
  - rewrite Z.min_l by lia. f_equal. lia.
  - rewrite Z.min_r by lia.
    rewrite !take_ge; [done| |]; rewrite length_drop; lia.
Qed.

(** The chunking loop terminates for a positive step, and its chunks
    tile the rest of the array: consecutive, non-empty, at most [size]
    long. *)
Lemma createChunks_loop_spec fuel : forall array size (i : Z) chunks,
  1 <= size -> 0 <= i -> (0 < fuel)%nat ->
  Z.of_nat (length array) - i < Z.of_nat fuel ->
  exists cs,
    createChunks_loop fuel array size i chunks = Some (chunks ++ cs)
    /\ concat cs = drop (Z.to_nat i) array
    /\ Forall (fun c => (0 < length c)%nat /\ Z.of_nat (length c) <= size) cs
    /\ Z.of_nat (length array) - i <= Z.of_nat (length cs) * size.
Proof.
  induction fuel as [|fuel IH]; intros array size i chunks Hs Hi Hpos Hf.
  - lia.
  - cbn [createChunks_loop].
    destruct (Z.ltb_spec i (Z.of_nat (length array))) as [Hlt|Hge].
    + destruct (IH array size (i + size)
                  (chunks ++ [slice array i (i + size)]))
        as (cs & Hcs & Hcat & Hall & Hn); [lia..|].
      exists (slice array i (i + size) :: cs).
      rewrite Hcs, <- app_assoc. split; [done|].
      rewrite slice_window by lia. split; [|split].
      * cbn [concat]. rewrite Hcat.
        replace (Z.to_nat (i + size)) with (Z.to_nat i + Z.to_nat size)%nat
          by lia.
        rewrite <- drop_drop. apply take_drop.
      * constructor; [|done].
        rewrite length_take, length_drop. lia.
      * cbn [length]. lia.
    + exists []. rewrite app_nil_r. split; [done|].
      split; [|split].
      * cbn. symmetry. apply drop_ge. lia.
      * constructor.
      * cbn. lia.
Qed.

Lemma createChunks_spec fuel array size :
  1 <= size -> (length array < fuel)%nat ->
  exists cs,
    _createChunks fuel array size = Some cs
    /\ concat cs = array
    /\ Forall (fun c => (0 < length c)%nat /\ Z.of_nat (length c) <= size) cs
    /\ Z.of_nat (length array) <= Z.of_nat (length cs) * size.
Proof.
  intros Hs Hf. unfold _createChunks.
  destruct (createChunks_loop_spec fuel array size 0 []) as (cs & H1 & H2 & H3 & H4);
    [lia..|].
  exists cs. cbn in H1, H2. repeat split; [done..|lia].
Qed.

(** With a step that is not positive the loop index never reaches the
    length of a non-empty array: no amount of fuel is enough. *)
Lemma createChunks_loop_diverges fuel : forall array size (i : Z) chunks,
  size <= 0 -> i < Z.of_nat (length array) ->
  createChunks_loop fuel array size i chunks = None.
Proof.
  induction fuel as [|fuel IH]; intros array size i chunks Hs Hi; [done|].
  cbn [createChunks_loop].
  destruct (Z.ltb_spec i (Z.of_nat (length array))); [|lia].
  apply IH; lia.
Qed.

(** A transform that works item by item commutes with the chunking. *)
Lemma processBatch_loop_map (f : A -> B) (processor : list A -> completion E (list B))
    progress total :
  (forall chunk, processor chunk = Normal (f <$> chunk)) ->
  forall chunks i results,
    snd (processBatch_loop processor progress total i chunks results)
    = Normal (results ++ (f <$> concat chunks)).
Proof.
  intros Hp. induction chunks as [|chunk rest IH]; intros i results.
  - cbn. by rewrite app_nil_r.
  - cbn [processBatch_loop]. rewrite Hp.
    specialize (IH (S i) (results ++ (f <$> chunk))).
    destruct (processBatch_loop _ _ _ _ rest _) as [tr r]. cbn in *.
    rewrite IH, fmap_app, app_assoc. done.
Qed.


(** No yield happens before chunk ten. *)
Lemma processBatch_loop_no_yield (processor : list A -> completion E (list B))
    progress total :
  forall chunks i results,
    (i + length chunks <= 10)%nat -> (i = 0 \/ 0 < i)%nat ->
    yields (fst (processBatch_loop processor progress total i chunks results)) = [].
Proof.
  induction chunks as [|chunk rest IH]; intros i results Hi _; [done|].
  cbn [processBatch_loop]. cbn in Hi.
  assert ((0 <? i)%nat && (i mod 10 =? 0)%nat = false) as ->.
  { apply andb_false_iff. destruct (decide (i = 0%nat)) as [->|]; [by left|].
    right. apply Nat.eqb_neq. rewrite Nat.mod_small; lia. }
  destruct (processor chunk) as [r|e]; [|done].
  specialize (IH (S i) (results ++ r)).
  destruct (processBatch_loop _ _ _ _ rest _) as [tr res]. cbn [fst] in *.
  unfold yields in *. rewrite !omap_app, IH by lia.
  by destruct progress.
Qed.


(** A transform failure on any chunk aborts the whole loop: the
    error of the first failing chunk is the outcome, and the results
    collected so far are dropped. *)
Lemma processBatch_loop_throw (processor : list A -> completion E (list B))
    progress total :
  forall chunks i results,
    Exists (fun c => exists e, processor c = Throw e) chunks ->
    exists c e,
      c ∈ chunks /\ processor c = Throw e
      /\ snd (processBatch_loop processor progress total i chunks results)
         = Throw e.
Proof.
  induction chunks as [|chunk rest IH]; intros i results Hex.
  - by apply Exists_nil in Hex.
  - cbn [processBatch_loop].
    destruct (processor chunk) as [r|e0] eqn:Hc.
    + apply Exists_cons in Hex as [[e He]|Hex]; [congruence|].
      destruct (IH (S i) (results ++ r) Hex) as (c & e & Hin & Hce & He).
      destruct (processBatch_loop _ _ _ _ rest _) as [tr q].
      exists c, e. split; [by right|done].
    + exists chunk, e0. split; [left|done].
Qed.

(** C2: for every chunk size of at least one and every transform that
    works item by item, [processBatch] returns the transform mapped
    over the items in their original order, whatever the chunk
    boundaries; the output is as long as the input. *)
Theorem processBatch_preserves_order (this : BatchProcessor) items
    (f : A -> B) (processor : list A -> completion E (list B))
    size (progress : bool) fuel :
  1 <= size ->
  (forall chunk, processor chunk = Normal (f <$> chunk)) ->
  (length items < fuel)%nat ->
  exists tr res,
    processBatch fuel this items processor
      {| opt_chunkSize := ArgNum size; onProgress := progress |}
    = Some (tr, Normal res)
    /\ res = f <$> items
    /\ length res = length items.
Proof.
  intros Hs Hp Hf. unfold processBatch. cbn [opt_chunkSize onProgress or_default].
  destruct (Z.eqb_spec size 0); [lia|].
  destruct (createChunks_spec fuel items size Hs Hf) as (cs & -> & Hcat & _).
  pose proof (processBatch_loop_map f processor progress (length cs) Hp cs 0%nat [])
    as Hres.
  destruct (processBatch_loop _ _ _ _ cs _) as [tr r]. cbn in Hres. subst r.
  exists tr, (f <$> concat cs). rewrite Hcat, length_fmap. done.
Qed.


(** C10: a falsy [options.chunkSize] is replaced by the default of the
    constructor, 1000, before the items are chunked: the call behaves
    as with [chunkSize: 1000], the chunking loop runs with step 1000,
    and the call terminates. *)
Theorem processBatch_falsy_chunkSize items
    (processor : list A -> completion E (list B)) (a : chunk_arg)
    (progress : bool) :
  falsy a = true ->
  or_default a (chunkSize new) = 1000
  /\ (forall fuel,
       processBatch fuel new items processor
         {| opt_chunkSize := a; onProgress := progress |}
       = processBatch fuel new items processor
           {| opt_chunkSize := ArgNum 1000; onProgress := progress |})
  /\ (forall fuel, (length items < fuel)%nat ->
       is_Some (processBatch fuel new items processor
                  {| opt_chunkSize := a; onProgress := progress |})).
Proof.
  intros Ha.
  assert (or_default a (chunkSize new) = 1000) as Hd.
  { destruct a; try done. cbn in *. by rewrite Ha. }
  split; [done|]. split.
  - intros fuel. unfold processBatch. cbn [opt_chunkSize onProgress].
    by rewrite Hd.
  - intros fuel Hf. unfold processBatch. cbn [opt_chunkSize onProgress].
    rewrite Hd.
    destruct (createChunks_spec fuel items 1000) as (cs & -> & _); [lia..|].
    by eexists.
Qed.

End BatchFacts.

Example createChunks_five_by_two :
  Batch._createChunks 6 [1; 2; 3; 4; 5] 2 = Some [[1; 2]; [3; 4]; [5]].
Proof. reflexivity. Qed.

(** A zero step never leaves the first index. *)
Example createChunks_zero_step :
  Batch._createChunks 1000 [1; 2; 3] 0 = None.
Proof. reflexivity. Qed.

(** Twenty-one chunks of one item: the loop yields before chunks 10 and
    20 and nowhere else. *)
Example yields_of_21_chunks :
  (fun run => Batch.yields run.1)
    <$> Batch.processBatch (E := unit) 22 Batch.new (replicate 21 0) Normal
          {| Batch.opt_chunkSize := Batch.ArgNum 1; Batch.onProgress := false |}
  = Some [10%nat; 20%nat].
Proof. vm_compute. reflexivity. Qed.

Lemma processBatch_preserves_order_witness :
  exists tr res,
    Batch.processBatch (E := unit) 6 Batch.new [1; 2; 3; 4; 5]
      (fun chunk => Normal (Z.succ <$> chunk))
      {| Batch.opt_chunkSize := Batch.ArgNum 2; Batch.onProgress := true |}
    = Some (tr, Normal res)
    /\ res = Z.succ <$> [1; 2; 3; 4; 5]
    /\ length res = length [1; 2; 3; 4; 5].
Proof.
  apply (processBatch_preserves_order Batch.new [1; 2; 3; 4; 5] Z.succ
           (fun chunk => Normal (Z.succ <$> chunk)) 2 true 6).
  - lia.
  - reflexivity.
  - simpl. lia.
Defined.



Lemma processBatch_falsy_chunkSize_witness :
  Batch.or_default (Batch.ArgNum 0) (Batch.chunkSize Batch.new) = 1000
  /\ (forall fuel,
       Batch.processBatch (E := unit) fuel Batch.new [1; 2; 3]
         (fun chunk => Normal chunk)
         {| Batch.opt_chunkSize := Batch.ArgNum 0; Batch.onProgress := false |}
       = Batch.processBatch fuel Batch.new [1; 2; 3]
           (fun chunk => Normal chunk)
           {| Batch.opt_chunkSize := Batch.ArgNum 1000; Batch.onProgress := false |})
  /\ (forall fuel, (length [1; 2; 3] < fuel)%nat ->
       is_Some (Batch.processBatch (E := unit) fuel Batch.new [1; 2; 3]
                  (fun chunk => Normal chunk)
                  {| Batch.opt_chunkSize := Batch.ArgNum 0;
                     Batch.onProgress := false |})).
Proof.
  apply (processBatch_falsy_chunkSize [1; 2; 3] (fun chunk => Normal chunk)
           (Batch.ArgNum 0) false).
  reflexivity.
Defined.

(** * Facts about the cache manager *)

Section CacheFacts.
Import Cache.
Context {I V : Type}.
Implicit Types (c : CacheManager I V) (h : heap) (key : string) (data : loc).

Lemma heap_get_set_eq h l f v : heap_get (heap_set h l f v) l f = Some v.
Proof.
  unfold heap_get, heap_set. rewrite lookup_insert_eq. cbn.
  apply lookup_insert_eq.
Qed.

Lemma heap_get_set_ne h l l' f f' v :
  l ≠ l' \/ f ≠ f' ->
  heap_get (heap_set h l f v) l' f' = heap_get h l' f'.
Proof.
  intros Hne. unfold heap_get, heap_set.
  destruct (decide (l = l')) as [<-|Hl].
  - rewrite lookup_insert_eq. cbn.
    destruct Hne as [?|Hf]; [done|]. rewrite lookup_insert_ne by done.
    by destruct (h !! l).
  - by rewrite lookup_insert_ne.
Qed.

Lemma fresh_true now t d : fresh now (Some t) d = true <-> now - t < d.
Proof. cbn. apply Z.ltb_lt. Qed.

Lemma fresh_false now t d : fresh now (Some t) d = false <-> d <= now - t.
Proof. cbn. apply Z.ltb_ge. Qed.

(** What [setData] leaves in the data map under the key it wrote. *)
Lemma setData_lookup now now' key data h c :
  dataCache (setData now now' key data h c).2 !! key =
    if stale (Some now) (now' - CACHE_DURATION c) then None else Some data.
Proof.
  cbn. destruct (now <? now' - CACHE_DURATION c) eqn:Hs.
  - apply map_lookup_filter_None. right. intros l Hl.
    rewrite lookup_insert_eq in Hl. injection Hl as <-. cbn.
    rewrite heap_get_set_eq. cbn. by rewrite Hs.
  - apply map_lookup_filter_Some. split; [apply lookup_insert_eq|].
    cbn. rewrite heap_get_set_eq. cbn. by rewrite Hs.
Qed.

Lemma setData_heap now now' key data h c :
  (setData now now' key data h c).1 = heap_set h data "timestamp" now.
Proof. done. Qed.

Lemma setData_duration now now' key data h c :
  CACHE_DURATION (setData now now' key data h c).2 = CACHE_DURATION c.
Proof. done. Qed.

(** A hit leaves the manager as it was; a miss leaves no entry. *)
Lemma getData_hit now key data h c t :
  dataCache c !! key = Some data ->
  heap_get h data "timestamp" = Some t ->
  now - t < CACHE_DURATION c ->
  getData now key h c = (Some data, c).
Proof.
  intros Hk Ht Hlt. unfold getData. rewrite Hk, Ht.
  by apply fresh_true in Hlt as ->.
Qed.

Lemma getData_expired now key data h c t :
  dataCache c !! key = Some data ->
  heap_get h data "timestamp" = Some t ->
  CACHE_DURATION c <= now - t ->
  getData now key h c = (None, with_dataCache c (delete key (dataCache c))).
Proof.
  intros Hk Ht Hge. unfold getData. rewrite Hk, Ht.
  by apply fresh_false in Hge as ->.
Qed.

Lemma getData_absent now key h c :
  dataCache c !! key = None -> getData now key h c = (None, c).
Proof. intros Hk. unfold getData. by rewrite Hk. Qed.

Lemma getData_miss_deletes now key h c :
  (getData now key h c).1 = None ->
  dataCache (getData now key h c).2 !! key = None.
Proof.
  unfold getData. destruct (dataCache c !! key) as [data|] eqn:Hk; [|done].
  destruct (fresh _ _ _); [done|]. intros _. cbn. apply lookup_delete_eq.
Qed.

(** [cleanup] establishes [swept] in all three maps. *)
Lemma cleanup_swept now h c : swept now h (cleanup now h c).
Proof.
  unfold swept, cleanup; cbn. repeat split.
  - intros key l t [_ Hl]%map_lookup_filter_Some Ht. cbn in Hl.
    rewrite Ht in Hl. cbn in Hl. apply Z.ltb_ge in Hl. lia.
  - intros key e [_ He]%map_lookup_filter_Some. cbn in He.
    apply Z.ltb_ge in He. lia.
  - intros key e [_ He]%map_lookup_filter_Some. cbn in He.
    apply Z.ltb_ge in He. lia.
Qed.

(** [setData] ends with [cleanup]: when it returns, no map holds an
    entry older than the duration. *)
Lemma setData_swept now now' key data h c :
  swept now' (setData now now' key data h c).1
             (setData now now' key data h c).2.
Proof. apply cleanup_swept. Qed.

(** C1: [setData(k, v)] followed by [getData(k)] before the duration
    has elapsed returns [v]; at or after it, [getData(k)] returns
    [null] and leaves no entry, so every further [getData(k)] returns
    [null] too; and a hit does not move the timestamp: a later read is
    still judged from the time of the [setData]. *)
Theorem ttl_expiration h c key data (t0 tc t1 : Z) :
  t0 <= tc <= t1 ->
  let h1 := (setData t0 tc key data h c).1 in
  let c1 := (setData t0 tc key data h c).2 in
  (t1 - t0 < CACHE_DURATION c -> getData t1 key h1 c1 = (Some data, c1))
  /\ (CACHE_DURATION c <= t1 - t0 ->
      (getData t1 key h1 c1).1 = None
      /\ dataCache (getData t1 key h1 c1).2 !! key = None
      /\ forall t2, getData t2 key h1 (getData t1 key h1 c1).2
                    = (None, (getData t1 key h1 c1).2))
  /\ (t1 - t0 < CACHE_DURATION c ->
      heap_get h1 data "timestamp" = Some t0
      /\ forall t2, CACHE_DURATION c <= t2 - t0 ->
           (getData t2 key h1 (getData t1 key h1 c1).2).1 = None).
Proof.
  intros Ht h1 c1.
  assert (heap_get h1 data "timestamp" = Some t0) as Hts
    by apply heap_get_set_eq.
  pose proof (setData_lookup t0 tc key data h c) as Hk. fold c1 in Hk.
  assert (CACHE_DURATION c1 = CACHE_DURATION c) as Hd by done.
  assert (t1 - t0 < CACHE_DURATION c -> getData t1 key h1 c1 = (Some data, c1))
    as Hhit.
  { intros Hlt. cbn in Hk.
    destruct (Z.ltb_spec t0 (tc - CACHE_DURATION c)); [lia|].
    eapply getData_hit; [done..|]. rewrite Hd. lia. }
  assert (forall t, CACHE_DURATION c <= t - t0 -> (getData t key h1 c1).1 = None)
    as Hmiss.
  { intros t Hge. destruct (dataCache c1 !! key) as [l|] eqn:Hl.
    - assert (l = data) as -> by (destruct (stale _ _); congruence).
      erewrite getData_expired; [done..|]. rewrite Hd. lia.
    - by rewrite getData_absent. }
  split; [done|]. split.
  - intros Hge. specialize (Hmiss t1 Hge).
    pose proof (getData_miss_deletes t1 key h1 c1 Hmiss) as Hgone.
    repeat split; [done..|]. intros t2. by apply getData_absent.
  - intros Hlt. split; [done|]. intros t2 Hge.
    rewrite (Hhit Hlt). cbn [snd]. by apply Hmiss.
Qed.

(** The same round trip in the visualization map, whose setter wraps
    the value. *)
Lemma visualization_round_trip c key (v : V) (t0 t1 : Z) :
  (getVisualization t1 key (setVisualization t0 key v c)).1 =
    if t1 - t0 <? CACHE_DURATION c then Some v else None.
Proof.
  unfold getVisualization, setVisualization. cbn.
  rewrite lookup_insert_eq. cbn. by destruct (_ <? _).
Qed.

Lemma mapInstance_round_trip c key (i : I) (t0 t1 : Z) :
  (getMapInstance t1 key (setMapInstance t0 key i c)).1 =
    if t1 - t0 <? CACHE_DURATION c then Some i else None.
Proof.
  unfold getMapInstance, setMapInstance. cbn.
  rewrite lookup_insert_eq. cbn. by destruct (_ <? _).
Qed.

(** [setVisualization] and [setMapInstance] only insert: an entry
    under another key stays, however old it is. *)
Lemma setVisualization_keeps c key key' (v : V) now :
  key ≠ key' ->
  visualizationCache (setVisualization now key v c) !! key'
  = visualizationCache c !! key'.
Proof. intros Hne. cbn. by rewrite lookup_insert_ne. Qed.

Lemma setMapInstance_keeps c key key' (i : I) now :
  key ≠ key' ->
  mapCache (setMapInstance now key i c) !! key' = mapCache c !! key'.
Proof. intros Hne. cbn. by rewrite lookup_insert_ne. Qed.

(** C9: [setData] writes the timestamp into the caller's own object
    and stores that object, not a copy: [getData] hands the same
    reference back, so a later write through it by any holder is seen
    by every other holder, the cache included. *)
Theorem setData_aliases_argument h c key data (t0 tc : Z) :
  tc - t0 <= CACHE_DURATION c ->
  let h1 := (setData t0 tc key data h c).1 in
  let c1 := (setData t0 tc key data h c).2 in
  heap_get h1 data "timestamp" = Some t0
  /\ dataCache c1 !! key = Some data
  /\ (forall t1, t1 - t0 < CACHE_DURATION c ->
        (getData t1 key h1 c1).1 = Some data)
  /\ (forall f v t1, f ≠ "timestamp" -> t1 - t0 < CACHE_DURATION c ->
        let h2 := heap_set h1 data f v in
        (getData t1 key h2 c1).1 = Some data /\ heap_get h2 data f = Some v)
  /\ (forall t' t1, t1 - t' < CACHE_DURATION c ->
        (getData t1 key (heap_set h1 data "timestamp" t') c1).1 = Some data).
Proof.
  intros Htc h1 c1.
  assert (heap_get h1 data "timestamp" = Some t0) as Hts
    by apply heap_get_set_eq.
  pose proof (setData_lookup t0 tc key data h c) as Hk. fold c1 in Hk.
  cbn in Hk. destruct (Z.ltb_spec t0 (tc - CACHE_DURATION c)); [lia|].
  assert (CACHE_DURATION c1 = CACHE_DURATION c) as Hd by done.
  repeat split; [done..| | | |].
  - intros t1 Hlt. erewrite getData_hit; [done..|]. by rewrite Hd.
  - erewrite getData_hit; [done| done | |].
    + rewrite heap_get_set_ne by (right; done). done.
    + by rewrite Hd.
  - apply heap_get_set_eq.
  - intros t' t1 Hlt. erewrite getData_hit; [done|done| |].
    + apply heap_get_set_eq.
    + by rewrite Hd.
Qed.

End CacheFacts.

Lemma ttl_expiration_witness :
  let h : Cache.heap := {[ 1%positive := {[ "rows" := 42 ]} ]} in
  let c : Cache.CacheManager unit unit := Cache.new in
  let h1 := (Cache.setData 1000 1001 "cdr" 1%positive h c).1 in
  let c1 := (Cache.setData 1000 1001 "cdr" 1%positive h c).2 in
  (2000 - 1000 < Cache.CACHE_DURATION c ->
   Cache.getData 2000 "cdr" h1 c1 = (Some 1%positive, c1))
  /\ (Cache.CACHE_DURATION c <= 2000 - 1000 ->
      (Cache.getData 2000 "cdr" h1 c1).1 = None
      /\ Cache.dataCache (Cache.getData 2000 "cdr" h1 c1).2 !! "cdr" = None
      /\ forall t2, Cache.getData t2 "cdr" h1 (Cache.getData 2000 "cdr" h1 c1).2
                    = (None, (Cache.getData 2000 "cdr" h1 c1).2))
  /\ (2000 - 1000 < Cache.CACHE_DURATION c ->
      Cache.heap_get h1 1%positive "timestamp" = Some 1000
      /\ forall t2, Cache.CACHE_DURATION c <= t2 - 1000 ->
           (Cache.getData t2 "cdr" h1 (Cache.getData 2000 "cdr" h1 c1).2).1
           = None).
Proof.
  intros h c.
  apply (ttl_expiration h c "cdr" 1%positive 1000 1001 2000). lia.
Defined.

Lemma setData_aliases_argument_witness :
  let h : Cache.heap := {[ 1%positive := {[ "rows" := 42 ]} ]} in
  let c : Cache.CacheManager unit unit := Cache.new in
  let h1 := (Cache.setData 1000 1001 "cdr" 1%positive h c).1 in
  let c1 := (Cache.setData 1000 1001 "cdr" 1%positive h c).2 in
  Cache.heap_get h1 1%positive "timestamp" = Some 1000
  /\ Cache.dataCache c1 !! "cdr" = Some 1%positive
  /\ (forall t1, t1 - 1000 < Cache.CACHE_DURATION c ->
        (Cache.getData t1 "cdr" h1 c1).1 = Some 1%positive)
  /\ (forall f v t1, f ≠ "timestamp" -> t1 - 1000 < Cache.CACHE_DURATION c ->
        let h2 := Cache.heap_set h1 1%positive f v in
        (Cache.getData t1 "cdr" h2 c1).1 = Some 1%positive
        /\ Cache.heap_get h2 1%positive f = Some v)
  /\ (forall t' t1, t1 - t' < Cache.CACHE_DURATION c ->
        (Cache.getData t1 "cdr"
           (Cache.heap_set h1 1%positive "timestamp" t') c1).1
        = Some 1%positive).
Proof.
  intros h c.
  apply (setData_aliases_argument h c "cdr" 1%positive 1000 1001).
  vm_compute. discriminate.
Defined.

(** C8 fails for the visualization and live-instance maps: their setters
    do not call [cleanup].  Ten minutes after a first [setVisualization]
    a second one returns with the first entry still stored, although the
    duration is five minutes; [setData] at the same moment removes it. *)
Lemma setVisualization_skips_cleanup :
  let c0 : Cache.CacheManager Z Z := Cache.new in
  let c1 := Cache.setVisualization 0 "markers_{}" 7 c0 in
  let c2 := Cache.setVisualization 600000 "heatmap_{}" 8 c1 in
  let c2' := Cache.setMapInstance 600000 "main"
               9 (Cache.setMapInstance 0 "old" 5 c0) in
  let c3 := (Cache.setData 600000 600000 "cdr" 1%positive ∅ c1).2 in
  Cache.visualizationCache c2 !! "markers_{}"
    = Some {| Cache.data := 7; Cache.viz_timestamp := 0 |}
  /\ Cache.CACHE_DURATION c2 < 600000 - 0
  /\ ~ Cache.swept 600000 ∅ c2
  /\ ~ Cache.swept 600000 ∅ c2'
  /\ Cache.visualizationCache c3 !! "markers_{}" = None.
Proof.
  cbv zeta. split; [done|]. split; [done|]. split; [|split].
  - intros (_ & _ & Hv).
    specialize (Hv "markers_{}" {| Cache.data := 7; Cache.viz_timestamp := 0 |}
                  eq_refl). vm_compute in Hv. by apply Hv.
  - intros (_ & Hm & _).
    specialize (Hm "old" {| Cache.instance := 5; Cache.map_timestamp := 0 |}
                  eq_refl). vm_compute in Hm. by apply Hm.
  - done.
Qed.

(** * Facts about the lazy loader *)

Section LoaderFacts.
Import Loader.
Implicit Types (w : world) (name : string) (p : promise).

Lemma init_consistent : consistent init.
Proof.
  repeat split; cbn; intros; simplify_map_eq; set_solver.
Qed.

Lemma loadModule_consistent name w :
  consistent w -> consistent (loadModule name w).2.
Proof.
  intros (Hmark & Hrank & Hloaded). unfold loadModule.
  destruct (decide _) as [Hin|Hnotin]; [done|].
  destruct (loadingPromises (loader w) !! name) as [p|] eqn:Hname; [done|].
  repeat split; cbn.
  - intros Hl. destruct (decide (name = name0)) as [<-|Hne].
    + rewrite lookup_insert_eq in Hl. injection Hl as <-.
      apply lookup_insert_eq.
    + rewrite lookup_insert_ne in Hl by done.
      pose proof (Hrank _ _ (proj1 (Hmark _ _) Hl)).
      rewrite lookup_insert_ne by lia. by apply Hmark.
  - intros Ha. destruct (decide (length (fetches w) = p)) as [<-|Hne].
    + rewrite lookup_insert_eq in Ha. injection Ha as <-.
      apply lookup_insert_eq.
    + rewrite lookup_insert_ne in Ha by done. apply Hmark in Ha.
      rewrite lookup_insert_ne by congruence. done.
  - intros p name' Ha. rewrite length_app. cbn.
    destruct (decide (length (fetches w) = p)) as [<-|Hne]; [lia|].
    rewrite lookup_insert_ne in Ha by done. apply Hrank in Ha. lia.
  - intros name' Hin. rewrite lookup_insert_ne by (intros ->; done). auto.
Qed.

Lemma settle_consistent p ok w : consistent w -> consistent (settle p ok w).
Proof.
  intros (Hmark & Hrank & Hloaded). unfold settle.
  destruct (awaiting w !! p) as [name|] eqn:Hp; [|done].
  assert (loadingPromises (loader w) !! name = Some p) as Hname
    by by apply Hmark.
  repeat split; cbn.
  - intros [Hne Hl]%lookup_delete_Some. apply lookup_delete_Some.
    split; [|by apply Hmark]. intros <-. apply Hmark in Hl. congruence.
  - intros [Hne Ha]%lookup_delete_Some. apply lookup_delete_Some.
    split; [|by apply Hmark]. intros <-. apply Hmark in Ha. congruence.
  - intros p' name' [_ Ha]%lookup_delete_Some. eauto.
  - intros name' Hin. destruct (decide (name = name')) as [<-|Hne].
    + apply lookup_delete_eq.
    + rewrite lookup_delete_ne by done. apply Hloaded.
      destruct ok; [|done].
      apply elem_of_union in Hin as [Hin%elem_of_singleton|Hin];
        [congruence|done].
Qed.

Lemma reachable_consistent w : reachable w -> consistent w.
Proof.
  induction 1 as [|a w _ IH]; [apply init_consistent|].
  destruct a; cbn; auto using loadModule_consistent, settle_consistent.
Qed.

(** At most one load per name is started and not settled. *)
Lemma outstanding_at_most_one name w :
  consistent w -> (length (outstanding name w) <= 1)%nat.
Proof.
  intros (Hmark & _). unfold outstanding.
  assert (NoDup (filter (fun p => awaiting w !! p = Some name)
                        (map_to_list (awaiting w)).*1)) as Hnd
    by (apply NoDup_filter, NoDup_fst_map_to_list).
  assert (forall p, p ∈ filter (fun p => awaiting w !! p = Some name)
                        (map_to_list (awaiting w)).*1 ->
                    loadingPromises (loader w) !! name = Some p) as Hall.
  { intros p [Hp _]%list_elem_of_filter. by apply Hmark. }
  destruct (filter _ _) as [|p1 [|p2 rest]]; cbn; [lia..|].
  exfalso. apply NoDup_cons in Hnd as [Hnotin _]. apply Hnotin.
  assert (p1 = p2) as ->; [|left].
  pose proof (Hall p1 ltac:(left)). pose proof (Hall p2 ltac:(right; left)).
  congruence.
Qed.

Lemma loadMany_loaded n name w :
  name ∈ loadedModules (loader w) ->
  loadMany n name w = (replicate n Resolved, w).
Proof.
  intros Hin. induction n as [|n IH]; [done|].
  cbn [loadMany]. unfold loadModule at 1.
  destruct (decide _); [|done]. by rewrite IH.
Qed.

Lemma loadMany_in_flight n name p w :
  name ∉ loadedModules (loader w) ->
  loadingPromises (loader w) !! name = Some p ->
  loadMany n name w = (replicate n (Follows p), w).
Proof.
  intros Hnotin Hname. induction n as [|n IH]; [done|].
  cbn [loadMany]. unfold loadModule at 1.
  destruct (decide _); [done|]. by rewrite Hname, IH.
Qed.

(** The first of [S n] calls starts the load; the others find the
    marker and are handed the promise of the first. *)
Lemma loadMany_unrequested n name w :
  name ∉ loadedModules (loader w) ->
  loadingPromises (loader w) !! name = None ->
  exists w',
    loadMany (S n) name w
    = (Awaits (length (fetches w))
         :: replicate n (Follows (length (fetches w))), w')
    /\ fetches w' = fetches w ++ [name]
    /\ loadingPromises (loader w') !! name = Some (length (fetches w)).
Proof.
  intros Hnotin Hname. cbn [loadMany].
  destruct (loadModule name w) as [a w1] eqn:Hfirst.
  unfold loadModule in Hfirst. destruct (decide _); [done|].
  rewrite Hname in Hfirst. injection Hfirst as <- <-.
  rewrite (loadMany_in_flight n name (length (fetches w)));
    [|done|apply lookup_insert_eq].
  eexists. split; [done|]. split; [done|]. apply lookup_insert_eq.
Qed.

(** A failed load clears the marker and records nothing. *)
Lemma settle_failure p name w :
  consistent w -> awaiting w !! p = Some name ->
  let w' := settle p false w in
  loadingPromises (loader w') !! name = None
  /\ (name ∉ loadedModules (loader w'))
  /\ fst (loadModule name w') = Awaits (length (fetches w))
  /\ fetches (loadModule name w').2 = fetches w ++ [name].
Proof.
  intros (Hmark & _ & Hloaded) Hp w'.
  assert (loadingPromises (loader w') !! name = None) as Hgone.
  { subst w'. unfold settle. rewrite Hp. cbn. apply lookup_delete_eq. }
  assert (name ∉ loadedModules (loader w')) as Hnotin.
  { subst w'. unfold settle. rewrite Hp. cbn. intros Hin.
    apply Hloaded in Hin. apply Hmark in Hp. congruence. }
  assert (fetches w' = fetches w) as Hf
    by (subst w'; unfold settle; by rewrite Hp).
  split; [done|]. split; [done|]. unfold loadModule.
  destruct (decide _); [done|]. rewrite Hgone. cbn. by rewrite Hf.
Qed.

(** C3: in every state the loader can reach, at most one load per name
    is outstanding; [S n] calls for a name that is neither loaded nor
    loading, nothing settling in between, start exactly one script
    load and every caller's result hangs on that one promise; a loaded
    name is answered at once from the loaded set; a failed load clears
    the marker without recording the name, and the next call starts a
    fresh load. *)
Theorem single_flight name w :
  reachable w ->
  (length (outstanding name w) <= 1)%nat
  /\ (forall n,
        name ∉ loadedModules (loader w) ->
        loadingPromises (loader w) !! name = None ->
        fetches (loadMany (S n) name w).2 = fetches w ++ [name]
        /\ Forall (fun a => pending_on a = Some (length (fetches w)))
                  (fst (loadMany (S n) name w)))
  /\ (forall n p,
        loadingPromises (loader w) !! name = Some p ->
        fetches (loadMany n name w).2 = fetches w
        /\ Forall (fun a => pending_on a = Some p) (fst (loadMany n name w)))
  /\ (forall n,
        name ∈ loadedModules (loader w) ->
        loadMany n name w = (replicate n Resolved, w))
  /\ (forall p,
        awaiting w !! p = Some name ->
        let w' := settle p false w in
        loadingPromises (loader w') !! name = None
        /\ (name ∉ loadedModules (loader w'))
        /\ fst (loadModule name w') = Awaits (length (fetches w))
        /\ fetches (loadModule name w').2 = fetches w ++ [name]).
Proof.
  intros Hw%reachable_consistent. split; [|split; [|split; [|split]]].
  - by apply outstanding_at_most_one.
  - intros n Hnotin Hname.
    destruct (loadMany_unrequested n name w Hnotin Hname) as (w' & -> & Hf & _).
    split; [done|]. cbn [fst]. constructor; [done|].
    apply Forall_replicate. done.
  - intros n p Hname.
    assert (name ∉ loadedModules (loader w)) as Hnotin.
    { intros Hin. destruct Hw as (_ & _ & Hloaded).
      apply Hloaded in Hin. congruence. }
    rewrite (loadMany_in_flight n name p) by done. split; [done|].
    apply Forall_replicate. done.
  - intros n Hin. by apply loadMany_loaded.
  - intros p Hp. by apply settle_failure.
Qed.

End LoaderFacts.

Lemma single_flight_witness :
  let w := Loader.step (Loader.Load "map-timeline") Loader.init in
  (length (Loader.outstanding "mapbox-gl-draw" w) <= 1)%nat
  /\ (forall n,
        "mapbox-gl-draw" ∉ Loader.loadedModules (Loader.loader w) ->
        Loader.loadingPromises (Loader.loader w) !! "mapbox-gl-draw" = None ->
        Loader.fetches (Loader.loadMany (S n) "mapbox-gl-draw" w).2
        = Loader.fetches w ++ ["mapbox-gl-draw"]
        /\ Forall (fun a => Loader.pending_on a
                            = Some (length (Loader.fetches w)))
                  (fst (Loader.loadMany (S n) "mapbox-gl-draw" w)))
  /\ (forall n p,
        Loader.loadingPromises (Loader.loader w) !! "mapbox-gl-draw" = Some p ->
        Loader.fetches (Loader.loadMany n "mapbox-gl-draw" w).2
        = Loader.fetches w
        /\ Forall (fun a => Loader.pending_on a = Some p)
                  (fst (Loader.loadMany n "mapbox-gl-draw" w)))
  /\ (forall n,
        "mapbox-gl-draw" ∈ Loader.loadedModules (Loader.loader w) ->
        Loader.loadMany n "mapbox-gl-draw" w
        = (replicate n Loader.Resolved, w))
  /\ (forall p,
        Loader.awaiting w !! p = Some "mapbox-gl-draw" ->
        let w' := Loader.settle p false w in
        Loader.loadingPromises (Loader.loader w') !! "mapbox-gl-draw" = None
        /\ ("mapbox-gl-draw" ∉ Loader.loadedModules (Loader.loader w'))
        /\ fst (Loader.loadModule "mapbox-gl-draw" w')
           = Loader.Awaits (length (Loader.fetches w))
        /\ Loader.fetches (Loader.loadModule "mapbox-gl-draw" w').2
           = Loader.fetches w ++ ["mapbox-gl-draw"]).
Proof.
  intros w.
  apply (single_flight "mapbox-gl-draw" w).
  apply Loader.reachable_step, Loader.reachable_init.
Defined.

(** Ten calls in a row on a fresh loader: one script load, one promise. *)
Example ten_concurrent_loads :
  (Loader.loadMany 10 "x" Loader.init).1
  = Loader.Awaits 0%nat :: replicate 9 (Loader.Follows 0%nat)
  /\ Loader.fetches (Loader.loadMany 10 "x" Loader.init).2 = ["x"].
Proof. split; reflexivity. Qed.

(** * Facts about the renderer *)

Section SamplingFacts.
Import Renderer.
Context {A : Type}.
Implicit Types (points rest sampled : list (option A)) (rnd : nat -> nat).

(** Once [maxPoints] elements are pushed the loop guard
    [sampled.length < maxPoints] is false: the replacement branch is
    never run. *)
Lemma samplePoints_loop_prefix rnd (maxPoints : nat) :
  forall rest (i : nat) sampled,
    length sampled = i -> (i <= maxPoints)%nat ->
    samplePoints_loop rnd maxPoints rest i sampled
    = sampled ++ take (maxPoints - i) rest.
Proof.
  induction rest as [|p rest IH]; intros i sampled Hlen Hi.
  - cbn. by rewrite take_nil, app_nil_r.
  - cbn [samplePoints_loop]. rewrite Hlen.
    destruct (Nat.ltb_spec i maxPoints) as [Hlt|Hge].
    + rewrite IH; [|rewrite length_app; cbn; lia|lia].
      replace (maxPoints - i)%nat with (S (maxPoints - S i)) by lia.
      cbn. by rewrite <- app_assoc.
    + replace (maxPoints - i)%nat with 0%nat by lia.
      cbn. by rewrite app_nil_r.
Qed.

Lemma samplePoints_take rnd points (maxPoints : nat) :
  _samplePoints rnd points maxPoints = take maxPoints points.
Proof.
  unfold _samplePoints.
  destruct (Nat.leb_spec (length points) maxPoints).
  - by rewrite take_ge.
  - rewrite samplePoints_loop_prefix; [|done|lia].
    cbn. by rewrite Nat.sub_0_r.
Qed.

(** C5, what the code does: whatever the random draws, the sample is
    the first [maxPoints] points of the input, in input order; no
    point past that prefix is ever selected. *)
Theorem samplePoints_is_prefix rnd points (maxPoints : nat) :
  _samplePoints rnd points maxPoints = take maxPoints points
  /\ length (_samplePoints rnd points maxPoints)
     = Nat.min maxPoints (length points)
  /\ forall (i : nat) p,
       _samplePoints rnd points maxPoints !! i = Some p ->
       (i < maxPoints)%nat /\ points !! i = Some p.
Proof.
  rewrite samplePoints_take. split; [done|]. split; [apply length_take|].
  intros i p Hi. apply lookup_take_Some in Hi. tauto.
Qed.

End SamplingFacts.

(** With the draw 0 at every step Algorithm R puts the last point of
    [[a; b; c]] into the sample of size two; the code returns the
    prefix. *)
Example sample_of_three :
  Renderer.reservoir_sampling (fun _ => 0%nat) [Some 1; Some 2; Some 3] 2
  = [Some 3; Some 2]
  /\ Renderer._samplePoints (fun _ => 0%nat) [Some 1; Some 2; Some 3] 2
     = [Some 1; Some 2].
Proof. split; reflexivity. Qed.

Section RenderFacts.
Import Renderer.
Context {M O : Type} {backend : MapBackend M} {opts : RenderOptions O}.
Implicit Types (r : OptimizedMapRenderer M) (e : effect).
Local Abbreviation stmt := (@action M).

Lemma bind_unfold {A B} (m : stmt A) (k : A -> stmt B) r :
  (m ≫= k) r =
    match m r with
    | (Normal x, r') => k x r'
    | (Throw err, r') => (Throw err, r')
    end.
Proof. done. Qed.

Lemma bind_normal {A B} (m : stmt A) (k : A -> stmt B) r x r' :
  m r = (Normal x, r') -> (m ≫= k) r = k x r'.
Proof. intros Hm. by rewrite bind_unfold, Hm. Qed.

Lemma bind_throw {A B} (m : stmt A) (k : A -> stmt B) r err r' :
  m r = (Throw err, r') -> (m ≫= k) r = (Throw err, r').
Proof. intros Hm. by rewrite bind_unfold, Hm. Qed.

(** *** Statements only add to the trace *)

Lemma appends_ret {A} (x : A) : appends (M := M) (ret x).
Proof. intros r. exists []. cbn. by rewrite app_nil_r. Qed.

Lemma appends_raise {A} err : appends (M := M) (raise (A := A) err).
Proof. intros r. exists []. cbn. by rewrite app_nil_r. Qed.

Lemma appends_lift {A} (c : completion exn A) : appends (M := M) (lift c).
Proof. intros r. exists []. cbn. by rewrite app_nil_r. Qed.

Lemma appends_get : appends (M := M) get.
Proof. intros r. exists []. cbn. by rewrite app_nil_r. Qed.

Lemma appends_emit e : appends (M := M) (emit e).
Proof. intros r. by exists [e]. Qed.

Lemma appends_set_map (m : M) : appends (set_map m).
Proof. intros r. exists []. cbn. by rewrite app_nil_r. Qed.

Lemma appends_set_cache c : appends (M := M) (set_cache c).
Proof. intros r. exists []. cbn. by rewrite app_nil_r. Qed.

Lemma appends_set_layers l : appends (M := M) (set_layers l).
Proof. intros r. exists []. cbn. by rewrite app_nil_r. Qed.

Lemma appends_bind {A B} (m : stmt A) (k : A -> stmt B) :
  appends m -> (forall x, appends (k x)) -> appends (m ≫= k).
Proof.
  intros Hm Hk r. rewrite bind_unfold. destruct (Hm r) as [t Ht].
  destruct (m r) as [[x|err] r']; cbn in *.
  - destruct (Hk x r') as [t' Ht']. exists (t ++ t').
    by rewrite Ht', Ht, app_assoc.
  - by exists t.
Qed.

Lemma appends_try_catch {A} (body : stmt A) handler :
  appends body -> (forall err, appends (handler err)) ->
  appends (try_catch body handler).
Proof.
  intros Hb Hh r. unfold try_catch. destruct (Hb r) as [t Ht].
  destruct (body r) as [[x|err] r']; cbn in *.
  - by exists t.
  - destruct (Hh err r') as [t' Ht']. exists (t ++ t').
    by rewrite Ht', Ht, app_assoc.
Qed.

Create HintDb appends discriminated.
Hint Resolve appends_ret appends_raise appends_lift appends_get
  appends_emit appends_set_map appends_set_cache appends_set_layers
  : appends.

Ltac appends_step :=
  first
    [ apply appends_bind; [|intros ?]
    | apply appends_try_catch; [|intros ?]
    | solve [auto with appends]
    | match goal with
      | |- appends (match ?x with _ => _ end) => destruct x
      | |- appends (if ?b then _ else _) => destruct b
      | |- appends (let '(_, _) := ?p in _) => destruct p
      end ].

Ltac solve_appends := repeat appends_step.

Lemma appends_removeLayer id : appends (_removeLayer id).
Proof. unfold _removeLayer. solve_appends. Qed.

Lemma appends_removeSource id : appends (_removeSource id).
Proof. unfold _removeSource. solve_appends. Qed.

Lemma appends_addSource id src : appends (map_addSource id src).
Proof. unfold map_addSource. solve_appends. Qed.

Lemma appends_addLayer l : appends (map_addLayer l).
Proof. unfold map_addLayer. solve_appends. Qed.

Lemma appends_cache_get now key : appends (M := M) (cache_get now key).
Proof. unfold cache_get. solve_appends. Qed.

Lemma appends_cache_set now key v :
  appends (M := M) (cache_set now key v).
Proof. unfold cache_set. solve_appends. Qed.

Lemma appends_report msg issue err :
  appends (M := M) (report msg issue err).
Proof. unfold report. solve_appends. Qed.

Hint Resolve appends_removeLayer appends_removeSource appends_addSource
  appends_addLayer appends_cache_get appends_cache_set appends_report
  : appends.

(** An effect recorded by the first statement is still in the trace
    after the rest. *)
Lemma bind_keeps_effect {A B} (m : stmt A) (k : A -> stmt B) r e :
  (forall x, appends (k x)) ->
  e ∈ trace (m r).2 -> e ∈ trace ((m ≫= k) r).2.
Proof.
  intros Hk He. rewrite bind_unfold.
  destruct (m r) as [[x|err] r']; cbn in *; [|done].
  destruct (Hk x r') as [t ->]. apply elem_of_app. by left.
Qed.

Lemma try_catch_keeps_effect {A} (body : stmt A) handler r e :
  (forall err, appends (handler err)) ->
  e ∈ trace (body r).2 -> e ∈ trace (try_catch body handler r).2.
Proof.
  intros Hh He. unfold try_catch.
  destruct (body r) as [[x|err] r']; cbn in *; [done|].
  destruct (Hh err r') as [t ->]. apply elem_of_app. by left.
Qed.

(** *** Statements that complete on an initialized renderer *)



Lemma keeps_map_removeLayer id : keeps_map (M := M) (_removeLayer id).
Proof.
  intros r [m Hm]. unfold _removeLayer.
  rewrite (bind_normal get _ r r r) by done. cbn beta. rewrite Hm.
  destruct (getLayer id m); [|by cbn; rewrite Hm].
  rewrite bind_unfold. cbn [emit].
  destruct (removeLayer id m) as [[err|] m']; by cbn.
Qed.

Lemma keeps_map_removeSource id : keeps_map (M := M) (_removeSource id).
Proof.
  intros r [m Hm]. unfold _removeSource.
  rewrite (bind_normal get _ r r r) by done. cbn beta. rewrite Hm.
  destruct (getSource id m); [|by cbn; rewrite Hm].
  rewrite bind_unfold. cbn [emit].
  destruct (removeSource id m) as [[err|] m']; by cbn.
Qed.

(** Running such a statement first does not change what follows. *)
Lemma keeps_map_then {B} (a : stmt unit) (k : unit -> stmt B)
    (Q : completion exn B * OptimizedMapRenderer M -> Prop) r :
  keeps_map a -> is_Some (map r) ->
  (forall r', is_Some (map r') -> cacheManager r' = cacheManager r ->
              Q (k tt r')) ->
  Q ((a ≫= k) r).
Proof.
  intros Ha Hr Hk. rewrite bind_unfold.
  destruct (Ha r Hr) as (Hn & Hs & Hc).
  destruct (a r) as [c r']. cbn in *. subst c. by apply Hk.
Qed.

Lemma mapPoints_all (make : nat -> point -> feature) (pts : list point) :
  forall i : nat,
    mapPoints make i (Some <$> pts)
    = Normal (imap (fun k => make (i + k)%nat) pts).
Proof.
  induction pts as [|p pts IH]; intros i; [done|].
  cbn [fmap list_fmap mapPoints]. rewrite IH. cbn [imap].
  rewrite Nat.add_0_r. do 2 f_equal. apply imap_ext.
  intros k q _. cbn. f_equal. lia.
Qed.


(** On an initialized renderer [this.map.addSource] is reached and
    recorded, whatever the map answers. *)
Lemma addSource_recorded id src r :
  is_Some (map r) ->
  CallAddSource id src ∈ trace (map_addSource id src r).2.
Proof.
  intros [m Hm]. unfold map_addSource.
  rewrite (bind_normal get _ r r r) by done. cbn beta. rewrite Hm.
  apply bind_keeps_effect.
  - intros _. destruct (addSource id src m) as [[err|] m']; solve_appends.
  - cbn. apply elem_of_app. right. left.
Qed.


(** *** The [catch] blocks *)

Lemma report_normal msg issue err r :
  report msg issue err r
  = (Normal tt,
     {| map := map r; layers := layers r; cacheManager := cacheManager r;
        batchProcessor := batchProcessor r;
        trace := (trace r ++ [ConsoleError msg err])
                 ++ [PerformanceIssue issue err] |}).
Proof. done. Qed.

Lemma try_catch_report_normal (body : stmt unit) msg issue r :
  (try_catch body (report msg issue) r).1 = Normal tt.
Proof.
  unfold try_catch. destruct (body r) as [[[]|err] r']; [done|].
  by rewrite report_normal.
Qed.


Lemma cache_get_unfold now key r :
  cache_get (M := M) now key r
  = (Normal (Cache.getVisualization now key (cacheManager r)).1,
     {| map := map r; layers := layers r;
        cacheManager := (Cache.getVisualization now key (cacheManager r)).2;
        batchProcessor := batchProcessor r; trace := trace r |}).
Proof.
  unfold cache_get. rewrite (bind_normal get _ r r r) by done.
  by destruct (Cache.getVisualization now key (cacheManager r)).
Qed.

Lemma getVisualization_miss now key
    (c : Cache.CacheManager unit visualization) :
  (Cache.getVisualization now key c).1 = None ->
  Cache.visualizationCache (Cache.getVisualization now key c).2 !! key = None.
Proof.
  unfold Cache.getVisualization.
  destruct (Cache.visualizationCache c !! key) as [cached|] eqn:Hk; [|done].
  destruct (Cache.fresh _ _ _); [done|]. intros _. cbn.
  apply lookup_delete_eq.
Qed.

(** *** What reaches the map *)

Lemma display_points rnd (pts : list point) (cap : nat) :
  (if (cap <? length (Some <$> pts))%nat
   then _samplePoints rnd (Some <$> pts) cap else Some <$> pts)
  = Some <$> take cap pts.
Proof.
  rewrite fmap_take.
  destruct (Nat.ltb_spec cap (length (Some <$> pts))).
  - apply samplePoints_take.
  - by rewrite take_ge.
Qed.





(** *** Failures inside the render methods *)


Lemma renderClusters_returns_normally now now' rnd act points (options : O) r :
  (renderClusters now now' rnd act points options r).1 = Normal tt.
Proof.
  unfold renderClusters. cbv zeta. rewrite bind_unfold, cache_get_unfold.
  destruct (Cache.getVisualization _ _ _).1; [done|].
  apply try_catch_report_normal.
Qed.

Lemma renderHeatmap_returns_normally fuel now now' points (options : O) r res :
  renderHeatmap fuel now now' points options r = Some res ->
  res.1 = Normal tt.
Proof.
  unfold renderHeatmap. cbv zeta. rewrite cache_get_unfold.
  destruct (Cache.getVisualization _ _ _).1; [by intros [= <-]|].
  destruct (Batch.processLargeDataset _ _ _ _) as [[events result]|]; [|done].
  intros [= <-]. apply try_catch_report_normal.
Qed.





Lemma heatmap_rest_source now key (processedPoints : list feature) r :
  is_Some (map r) ->
  CallAddSource "heatmap-source"
    {| features := processedPoints;
       cluster := (1000 <? length processedPoints)%nat |}
  ∈ trace (renderHeatmap_rest now key processedPoints r).2.
Proof.
  intros Hr. unfold renderHeatmap_rest. cbv zeta.
  apply (keeps_map_then _ _ (fun res => _ ∈ trace res.2));
    [apply keeps_map_removeLayer|done|].
  intros r2 Hr2 _.
  apply (keeps_map_then _ _ (fun res => _ ∈ trace res.2));
    [apply keeps_map_removeSource|done|].
  intros r3 Hr3 _.
  apply bind_keeps_effect; [intros; solve_appends|].
  by apply addSource_recorded.
Qed.

End RenderFacts.

(** ** The renderer on concrete hosts *)





(** * More about the batch processor *)

Section BatchShape.
Import Batch.
Context {A B E : Type}.
Implicit Types (array items : list A) (size : Z) (fuel : nat).

(** The chunk pushed at loop index [i] is the window of [size] items
    starting at [i], and the loop makes as many chunks as windows are
    needed to cover what is left. *)
Lemma createChunks_loop_shape fuel : forall array size (i : Z) chunks,
  1 <= size -> 0 <= i -> (0 < fuel)%nat ->
  Z.of_nat (length array) - i < Z.of_nat fuel ->
  exists cs,
    createChunks_loop fuel array size i chunks = Some (chunks ++ cs)
    /\ (forall (j : nat) c, cs !! j = Some c ->
          c = take (Z.to_nat size)
                (drop (Z.to_nat i + j * Z.to_nat size) array))
    /\ Z.of_nat (length cs)
       = if i <? Z.of_nat (length array)
         then (Z.of_nat (length array) - i + size - 1) / size else 0.
Proof.
  induction fuel as [|fuel IH]; intros array size i chunks Hs Hi Hpos Hf.
  - lia.
  - cbn [createChunks_loop].
    destruct (Z.ltb_spec i (Z.of_nat (length array))) as [Hlt|Hge].
    + destruct (IH array size (i + size)
                  (chunks ++ [slice array i (i + size)]))
        as (cs & Hcs & Hnth & Hn); [lia..|].
      exists (slice array i (i + size) :: cs).
      rewrite Hcs, <- app_assoc. split; [done|]. split.
      * intros [|j] c Hc; cbn in Hc.
        -- injection Hc as <-. rewrite slice_window by lia.
           by rewrite Nat.add_0_r.
        -- rewrite (Hnth j c Hc). do 2 f_equal. lia.
      * cbn [length]. rewrite Nat2Z.inj_succ, Hn.
        destruct (Z.ltb_spec (i + size) (Z.of_nat (length array))).
        -- replace (Z.of_nat (length array) - i + size - 1)
             with (Z.of_nat (length array) - (i + size) + size - 1 + 1 * size)
             by lia.
           rewrite Z.div_add by lia. lia.
        -- apply Z.div_unique_pos with
             (r := Z.of_nat (length array) - i - 1); lia.
    + exists []. rewrite app_nil_r. split; [done|]. split; [done|]. done.
Qed.

Lemma createChunks_shape fuel array size :
  1 <= size -> (length array < fuel)%nat ->
  exists cs,
    _createChunks fuel array size = Some cs
    /\ (forall (j : nat) c, cs !! j = Some c ->
          c = take (Z.to_nat size) (drop (j * Z.to_nat size) array))
    /\ Z.of_nat (length cs) = (Z.of_nat (length array) + size - 1) / size.
Proof.
  intros Hs Hf. unfold _createChunks.
  destruct (createChunks_loop_shape fuel array size 0 [])
    as (cs & Hcs & Hnth & Hn); [lia..|].
  exists cs. split; [done|]. split; [done|]. rewrite Hn.
  destruct (Z.ltb_spec 0 (Z.of_nat (length array))).
  - f_equal. lia.
  - symmetry. apply Z.div_small. lia.
Qed.

(** The first [k] chunks together are the first [k * size] items. *)
Lemma chunks_prefix array (sz : nat) (cs : list (list A)) :
  (forall (j : nat) c, cs !! j = Some c -> c = take sz (drop (j * sz) array)) ->
  forall k : nat, concat (take k cs) = take (Nat.min k (length cs) * sz) array.
Proof.
  intros Hnth. induction k as [|k IH]; [done|].
  destruct (cs !! k) as [c|] eqn:Hk.
  - pose proof (lookup_lt_Some _ _ _ Hk).
    erewrite take_S_r by done. rewrite concat_app, IH. cbn [concat].
    rewrite app_nil_r, (Hnth k c Hk).
    rewrite Nat.min_l, Nat.min_l by lia. rewrite take_take_drop.
    f_equal. lia.
  - apply lookup_ge_None in Hk.
    rewrite take_ge in IH by lia. rewrite take_ge by lia.
    rewrite IH. f_equal. lia.
Qed.

(** X1: for a chunk size of at least one, [_createChunks] returns the
    consecutive windows of the array: as many as needed to cover it,
    the one of index [j] holding the items from [j * size] on, all of
    them [size] long except the last, which holds between one and
    [size] items. *)
Theorem chunks_are_consecutive_windows fuel array size :
  1 <= size -> (length array < fuel)%nat ->
  exists cs,
    _createChunks fuel array size = Some cs
    /\ Z.of_nat (length cs) = (Z.of_nat (length array) + size - 1) / size
    /\ forall (j : nat) c, cs !! j = Some c ->
         c = take (Z.to_nat size) (drop (j * Z.to_nat size) array)
         /\ ((S j < length cs)%nat -> length c = Z.to_nat size)
         /\ (1 <= length c <= Z.to_nat size)%nat.
Proof.
  intros Hs Hf.
  destruct (createChunks_shape fuel array size Hs Hf) as (cs & Hcs & Hnth & Hn).
  exists cs. split; [done|]. split; [done|]. intros j c Hc.
  pose proof (lookup_lt_Some _ _ _ Hc) as Hj.
  pose proof (Z.mul_div_le (Z.of_nat (length array) + size - 1) size
                ltac:(lia)) as Hle.
  rewrite <- Hn in Hle.
  rewrite (Hnth j c Hc). split; [done|].
  rewrite length_take, length_drop. split; [intros Hlast|]; nia.
Qed.

(** *** What the host observes of a run *)


Lemma reports_loop (f : A -> B) (processor : list A -> completion E (list B))
    total :
  (forall chunk, processor chunk = Normal (f <$> chunk)) ->
  forall chunks (i : nat) results,
    reports (fst (processBatch_loop processor true total i chunks results))
    = imap (fun j _ => (S (i + j), total,
                        length results + length (concat (take (S j) chunks)))%nat)
           chunks.
Proof.
  intros Hp. induction chunks as [|chunk rest IH]; intros i results; [done|].
  cbn [processBatch_loop]. rewrite Hp.
  specialize (IH (S i) (results ++ (f <$> chunk))).
  destruct (processBatch_loop _ _ _ _ rest _) as [tr q]. cbn [fst] in *.
  unfold reports in *. rewrite !omap_app, IH, imap_cons.
  assert (omap (fun ev => match ev with
                          | EvProgress d t n => Some (d, t, n)
                          | _ => None
                          end)
            (if (0 <? i)%nat && (i mod 10 =? 0)%nat then [EvYield i] else [])
          = []) as -> by by destruct (_ && _).
  cbn [omap list_omap app]. f_equal.
  - rewrite Nat.add_0_r, length_app, length_fmap. cbn.
    by rewrite app_nil_r.
  - apply imap_ext. intros j c _. cbn.
    rewrite !length_app, length_fmap. f_equal; [f_equal|]; lia.
Qed.


(** X3: with a progress callback and a transform that works item by
    item, [onProgress] is called once per chunk, in chunk order; the
    call after the chunk of index [j] receives [j + 1] of the total
    number of chunks and the number of items done so far, which is
    [(j + 1) * size] capped at the number of items. *)
Theorem progress_is_reported_per_chunk (this : BatchProcessor) items
    (f : A -> B) (processor : list A -> completion E (list B)) size fuel :
  1 <= size -> (length items < fuel)%nat ->
  (forall chunk, processor chunk = Normal (f <$> chunk)) ->
  let total := Z.to_nat ((Z.of_nat (length items) + size - 1) / size) in
  exists tr res,
    processBatch fuel this items processor
      {| opt_chunkSize := ArgNum size; onProgress := true |}
    = Some (tr, res)
    /\ reports tr
       = (fun j => (S j, total,
                    Nat.min (S j * Z.to_nat size) (length items)))
         <$> seq 0 total.
Proof.
  intros Hs Hf Hp total. unfold processBatch.
  cbn [opt_chunkSize onProgress or_default].
  destruct (Z.eqb_spec size 0); [lia|].
  destruct (createChunks_shape fuel items size Hs Hf) as (cs & -> & Hnth & Hn).
  assert (total = length cs) as Htotal by (subst total; lia).
  pose proof (reports_loop f processor (length cs) Hp cs 0%nat []) as Hr.
  destruct (processBatch_loop _ _ _ _ cs _) as [tr q]. cbn [fst] in Hr.
  exists tr, q. split; [done|]. rewrite Hr, Htotal, <- imap_seq_0.
  apply imap_ext. intros j c Hc. cbn beta.
  pose proof (lookup_lt_Some _ _ _ Hc) as Hj.
  rewrite (chunks_prefix items (Z.to_nat size) cs Hnth (S j)).
  rewrite length_take, (Nat.min_l (S j) (length cs)) by lia. done.
Qed.

(** X4: a chunk size that is negative, or a zero default behind a falsy
    option, never lets the chunking loop reach the end of a non-empty
    input: the call does not return, whatever the fuel. *)
Theorem nonpositive_chunk_size_never_returns (this : BatchProcessor) items
    (processor : list A -> completion E (list B)) (opts : options) :
  items <> [] ->
  or_default (opt_chunkSize opts) (chunkSize this) <= 0 ->
  forall fuel, processBatch fuel this items processor opts = None.
Proof.
  intros Hne Hsize fuel. unfold processBatch, _createChunks.
  rewrite createChunks_loop_diverges; [done|done|].
  destruct items; [done|]. cbn [length]. lia.
Qed.

(** On an empty input [processBatch] returns the empty result for
    every chunk size, without calling the transform, yielding or
    reporting progress. *)
Theorem empty_batch (this : BatchProcessor)
    (processor : list A -> completion E (list B)) (opts : options) fuel :
  processBatch (S fuel) this [] processor opts = Some ([], Normal []).
Proof. done. Qed.

(** X5: if the transform fails on every chunk that contains some item
    of the input, the whole batch fails, wherever the chunk boundaries
    fall: the outcome is the error of a chunk, never a partial
    result. *)
Theorem failing_item_fails_the_batch (this : BatchProcessor) items
    (processor : list A -> completion E (list B)) size (progress : bool)
    fuel (x : A) :
  1 <= size -> (length items < fuel)%nat ->
  x ∈ items ->
  (forall chunk, x ∈ chunk -> exists e, processor chunk = Throw e) ->
  exists tr chunk e,
    processBatch fuel this items processor
      {| opt_chunkSize := ArgNum size; onProgress := progress |}
    = Some (tr, Throw e)
    /\ processor chunk = Throw e.
Proof.
  intros Hs Hf Hx Hfail. unfold processBatch.
  cbn [opt_chunkSize onProgress or_default].
  destruct (Z.eqb_spec size 0); [lia|].
  destruct (createChunks_spec fuel items size Hs Hf) as (cs & -> & Hcat & _).
  destruct (processBatch_loop_throw processor progress (length cs) cs 0%nat [])
    as (c & e & _ & Hce & He).
  { rewrite <- Hcat in Hx.
    apply list_elem_of_In, in_concat in Hx as (c & Hc & Hin).
    apply list_elem_of_In in Hc, Hin.
    apply Exists_exists. exists c. split; [done|]. by apply Hfail. }
  destruct (processBatch_loop _ _ _ _ cs _) as [tr q]. cbn in He. subst q.
  by exists tr, c, e.
Qed.

(** A transform that agrees, on the chunks at hand, with a function
    that distributes over concatenation commutes with the chunking. *)
Lemma processBatch_loop_on (g : list A -> list B)
    (processor : list A -> completion E (list B)) progress total :
  g [] = [] -> (forall a b, g (a ++ b) = g a ++ g b) ->
  forall chunks i results,
    Forall (fun c => processor c = Normal (g c)) chunks ->
    snd (processBatch_loop processor progress total i chunks results)
    = Normal (results ++ g (concat chunks)).
Proof.
  intros Hnil Happ. induction chunks as [|chunk rest IH]; intros i results Hall.
  - cbn. by rewrite Hnil, app_nil_r.
  - apply Forall_cons in Hall as [Hc Hall].
    cbn [processBatch_loop]. rewrite Hc.
    specialize (IH (S i) (results ++ g chunk) Hall).
    destruct (processBatch_loop _ _ _ _ rest _) as [tr r]. cbn in *.
    by rewrite IH, Happ, app_assoc.
Qed.

Lemma processLargeDataset_on (this : BatchProcessor) (data : list A)
    (g : list A -> list B) (processor : list A -> completion E (list B))
    (P : A -> Prop) fuel :
  g [] = [] -> (forall a b, g (a ++ b) = g a ++ g b) ->
  (forall chunk, Forall P chunk -> processor chunk = Normal (g chunk)) ->
  Forall P data -> (length data < fuel)%nat ->
  exists tr,
    processLargeDataset fuel this data processor = Some (tr, Normal (g data)).
Proof.
  intros Hnil Happ Hp Hdata Hf. unfold processLargeDataset. destruct (_ <? _).
  - unfold processBatch. cbn [opt_chunkSize onProgress or_default Z.eqb].
    destruct (createChunks_spec fuel data 1000) as (cs & -> & Hcat & _);
      [lia..|].
    assert (Forall (fun c => processor c = Normal (g c)) cs) as Hall.
    { apply Forall_forall. intros c Hc. apply Hp. apply Forall_forall.
      intros x Hx. rewrite Forall_forall in Hdata. apply Hdata.
      rewrite <- Hcat. apply list_elem_of_In, in_concat.
      exists c. by rewrite <- !list_elem_of_In. }
    pose proof (processBatch_loop_on g processor true (length cs) Hnil Happ
                  cs 0%nat [] Hall) as Hres.
    destruct (processBatch_loop _ _ _ _ cs _) as [tr r]. cbn in Hres.
    subst r. exists tr. by rewrite Hcat.
  - exists []. by rewrite Hp.
Qed.

(** X6: for a transform that works item by item [processLargeDataset]
    returns the transform mapped over the data in order, on both sides
    of its threshold of 10,000 items. *)
Theorem processLargeDataset_preserves_order (this : BatchProcessor)
    (data : list A) (f : A -> B)
    (processor : list A -> completion E (list B)) fuel :
  (length data < fuel)%nat ->
  (forall chunk, processor chunk = Normal (f <$> chunk)) ->
  exists tr,
    processLargeDataset fuel this data processor
    = Some (tr, Normal (f <$> data)).
Proof.
  intros Hf Hp. unfold processLargeDataset. destruct (_ <? _).
  - unfold processBatch. cbn [opt_chunkSize onProgress or_default Z.eqb].
    destruct (createChunks_spec fuel data 1000) as (cs & -> & Hcat & _);
      [lia..|].
    pose proof (processBatch_loop_map f processor true (length cs) Hp cs
                  0%nat []) as Hres.
    destruct (processBatch_loop _ _ _ _ cs _) as [tr r]. cbn in Hres.
    subst r. exists tr. by rewrite Hcat.
  - exists []. by rewrite Hp.
Qed.

End BatchShape.

Lemma chunks_are_consecutive_windows_witness :
  exists cs,
    Batch._createChunks 6 [1; 2; 3; 4; 5] 2 = Some cs
    /\ Z.of_nat (length cs) = (Z.of_nat (length [1; 2; 3; 4; 5]) + 2 - 1) / 2
    /\ forall (j : nat) c, cs !! j = Some c ->
         c = take (Z.to_nat 2) (drop (j * Z.to_nat 2) [1; 2; 3; 4; 5])
         /\ ((S j < length cs)%nat -> length c = Z.to_nat 2)
         /\ (1 <= length c <= Z.to_nat 2)%nat.
Proof.
  apply (chunks_are_consecutive_windows 6 [1; 2; 3; 4; 5] 2).
  - lia.
  - simpl. lia.
Defined.


Lemma progress_is_reported_per_chunk_witness :
  let total := Z.to_nat ((Z.of_nat (length [1; 2; 3; 4; 5]) + 2 - 1) / 2) in
  exists tr res,
    Batch.processBatch (E := unit) 6 Batch.new [1; 2; 3; 4; 5]
      (fun chunk => Normal (Z.succ <$> chunk))
      {| Batch.opt_chunkSize := Batch.ArgNum 2; Batch.onProgress := true |}
    = Some (tr, res)
    /\ Batch.reports tr
       = (fun j => (S j, total,
                    Nat.min (S j * Z.to_nat 2) (length [1; 2; 3; 4; 5])))
         <$> seq 0 total.
Proof.
  apply (progress_is_reported_per_chunk (E := unit) Batch.new [1; 2; 3; 4; 5]
           Z.succ (fun chunk => Normal (Z.succ <$> chunk)) 2 6).
  - lia.
  - simpl. lia.
  - reflexivity.
Defined.

Lemma nonpositive_chunk_size_never_returns_witness :
  Batch.processBatch (B := Z) (E := unit) 1000 Batch.new [1; 2; 3] Normal
    {| Batch.opt_chunkSize := Batch.ArgNum (-5); Batch.onProgress := false |}
  = None.
Proof.
  refine (nonpositive_chunk_size_never_returns (E := unit) Batch.new [1; 2; 3]
            Normal
            {| Batch.opt_chunkSize := Batch.ArgNum (-5);
               Batch.onProgress := false |} _ _ 1000%nat).
  - discriminate.
  - simpl. lia.
Defined.

Lemma failing_item_fails_the_batch_witness :
  exists tr (chunk : list Z) e,
    Batch.processBatch (B := Z) 6 Batch.new [1; 2; 3; 4; 5]
      (fun chunk => if decide (4 ∈ chunk) then Throw 4 else Normal chunk)
      {| Batch.opt_chunkSize := Batch.ArgNum 2; Batch.onProgress := true |}
    = Some (tr, Throw e)
    /\ (if decide (4 ∈ chunk) then Throw 4 else Normal chunk) = Throw e.
Proof.
  apply (failing_item_fails_the_batch (B := Z) Batch.new [1; 2; 3; 4; 5]
           (fun chunk => if decide (4 ∈ chunk) then Throw 4 else Normal chunk)
           2 true 6 4).
  - lia.
  - simpl. lia.
  - do 3 apply list_elem_of_further. apply list_elem_of_here.
  - intros chunk Hin. exists 4. by rewrite decide_True.
Defined.

Lemma processLargeDataset_preserves_order_witness :
  exists tr,
    Batch.processLargeDataset (E := unit) 4 Batch.new [1; 2; 3]
      (fun chunk => Normal (Z.succ <$> chunk))
    = Some (tr, Normal (Z.succ <$> [1; 2; 3])).
Proof.
  apply (processLargeDataset_preserves_order (E := unit) Batch.new [1; 2; 3]
           Z.succ (fun chunk => Normal (Z.succ <$> chunk)) 4).
  - simpl. lia.
  - reflexivity.
Defined.

(** * More about the cache manager *)

Section CacheMoreFacts.
Import Cache.
Context {I V : Type}.
Implicit Types (c : CacheManager I V) (h : heap) (key : string) (data : loc).

(** X7: [cleanup] removes exactly the entries whose age exceeds the
    duration: an entry is in a map afterwards if and only if it was
    there before and is not older than the duration (in the data map an
    object without a timestamp is never removed).  A second pass at the
    same time changes nothing. *)
Theorem cleanup_removes_exactly_the_expired now h c :
  (forall key l,
     dataCache (cleanup now h c) !! key = Some l
     <-> dataCache c !! key = Some l
         /\ forall t, heap_get h l "timestamp" = Some t ->
                      now - t <= CACHE_DURATION c)
  /\ (forall key e,
        mapCache (cleanup now h c) !! key = Some e
        <-> mapCache c !! key = Some e
            /\ now - map_timestamp e <= CACHE_DURATION c)
  /\ (forall key e,
        visualizationCache (cleanup now h c) !! key = Some e
        <-> visualizationCache c !! key = Some e
            /\ now - viz_timestamp e <= CACHE_DURATION c)
  /\ cleanup now h (cleanup now h c) = cleanup now h c.
Proof.
  split; [|split; [|split]].
  - intros key l. cbn. rewrite map_lookup_filter_Some. cbn.
    split; intros [Hk Hl]; (split; [done|]).
    + intros t Ht. rewrite Ht in Hl. cbn in Hl. apply Z.ltb_ge in Hl. lia.
    + destruct (heap_get h l "timestamp") as [t|]; [|done]. cbn.
      apply Z.ltb_ge. specialize (Hl t eq_refl). lia.
  - intros key e. cbn. rewrite map_lookup_filter_Some. cbn.
    rewrite Z.ltb_ge. split; intros [Hk He]; (split; [done|lia]).
  - intros key e. cbn. rewrite map_lookup_filter_Some. cbn.
    rewrite Z.ltb_ge. split; intros [Hk He]; (split; [done|lia]).
  - unfold cleanup. cbn. f_equal; apply map_eq; intros key;
      apply option_eq; intros x; rewrite !map_lookup_filter_Some; tauto.
Qed.

(** X8: [setData] sweeps all three maps, not only the one it writes:
    when it returns no map holds an entry older than the duration, and
    of the visualization and live-instance maps exactly the entries not
    older than the duration are left. *)
Theorem setData_sweeps_every_store now now' key data h c :
  let h1 := (setData now now' key data h c).1 in
  let c1 := (setData now now' key data h c).2 in
  swept now' h1 c1
  /\ (forall k e,
        visualizationCache c1 !! k = Some e
        <-> visualizationCache c !! k = Some e
            /\ now' - viz_timestamp e <= CACHE_DURATION c)
  /\ (forall k e,
        mapCache c1 !! k = Some e
        <-> mapCache c !! k = Some e
            /\ now' - map_timestamp e <= CACHE_DURATION c).
Proof.
  intros h1 c1. split; [apply cleanup_swept|]. split.
  - intros k e. subst c1. cbn. rewrite map_lookup_filter_Some. cbn.
    rewrite Z.ltb_ge. split; intros [Hk He]; (split; [done|lia]).
  - intros k e. subst c1. cbn. rewrite map_lookup_filter_Some. cbn.
    rewrite Z.ltb_ge. split; intros [Hk He]; (split; [done|lia]).
Qed.

(** X9: a read touches at most the entry under its own key in its own
    map: every other key of that map, the two other maps and the
    duration are as before; this holds on a hit, on a miss and on an
    expiry alike. *)
Theorem get_is_local now key h c :
  (let c' := (getData now key h c).2 in
   (forall k, k ≠ key -> dataCache c' !! k = dataCache c !! k)
   /\ mapCache c' = mapCache c
   /\ visualizationCache c' = visualizationCache c
   /\ CACHE_DURATION c' = CACHE_DURATION c)
  /\ (let c' := (getMapInstance now key c).2 in
      (forall k, k ≠ key -> mapCache c' !! k = mapCache c !! k)
      /\ dataCache c' = dataCache c
      /\ visualizationCache c' = visualizationCache c
      /\ CACHE_DURATION c' = CACHE_DURATION c)
  /\ (let c' := (getVisualization now key c).2 in
      (forall k, k ≠ key ->
                 visualizationCache c' !! k = visualizationCache c !! k)
      /\ dataCache c' = dataCache c
      /\ mapCache c' = mapCache c
      /\ CACHE_DURATION c' = CACHE_DURATION c).
Proof.
  split; [|split]; cbv zeta.
  - unfold getData. destruct (dataCache c !! key); [|done].
    destruct (fresh _ _ _); [done|]. cbn. repeat split.
    intros k Hk. by rewrite lookup_delete_ne.
  - unfold getMapInstance. destruct (mapCache c !! key); [|done].
    destruct (fresh _ _ _); [done|]. cbn. repeat split.
    intros k Hk. by rewrite lookup_delete_ne.
  - unfold getVisualization. destruct (visualizationCache c !! key); [|done].
    destruct (fresh _ _ _); [done|]. cbn. repeat split.
    intros k Hk. by rewrite lookup_delete_ne.
Qed.

(** X10: in the visualization and live-instance maps a value set under
    a key is read back, whatever the value, exactly while less than the
    duration has passed since the set; setting the key again replaces
    value and timestamp, so the duration runs from the last set. *)
Theorem wrapped_stores_round_trip c key (v v' : V) (i i' : I) (t0 t1 t : Z) :
  (getVisualization t key (setVisualization t0 key v c)).1
    = (if t - t0 <? CACHE_DURATION c then Some v else None)
  /\ (getMapInstance t key (setMapInstance t0 key i c)).1
     = (if t - t0 <? CACHE_DURATION c then Some i else None)
  /\ setVisualization t1 key v' (setVisualization t0 key v c)
     = setVisualization t1 key v' c
  /\ setMapInstance t1 key i' (setMapInstance t0 key i c)
     = setMapInstance t1 key i' c.
Proof.
  split; [apply visualization_round_trip|].
  split; [apply mapInstance_round_trip|].
  unfold setVisualization, setMapInstance, with_visualizationCache,
    with_mapCache. cbn. by rewrite !insert_insert_eq.
Qed.

(** X11: one object stored under two keys has one timestamp.  After
    [setData(a, o)] and a later [setData(b, o)] the entry under [a] is
    judged by the time of the second call: it is still served while
    less than the duration has passed since then, however long ago [a]
    was set. *)
Theorem shared_object_shares_timestamp h c (a b : string) data
    (t0 tc0 t1 tc1 : Z) :
  a ≠ b ->
  tc0 - t0 <= CACHE_DURATION c -> tc1 - t1 <= CACHE_DURATION c ->
  let h1 := (setData t0 tc0 a data h c).1 in
  let c1 := (setData t0 tc0 a data h c).2 in
  let h2 := (setData t1 tc1 b data h1 c1).1 in
  let c2 := (setData t1 tc1 b data h1 c1).2 in
  heap_get h2 data "timestamp" = Some t1
  /\ dataCache c2 !! a = Some data
  /\ forall t, t - t1 < CACHE_DURATION c ->
       (getData t a h2 c2).1 = Some data.
Proof.
  intros Hab H0 H1 h1 c1 h2 c2.
  assert (heap_get h2 data "timestamp" = Some t1) as Hts
    by apply heap_get_set_eq.
  assert (dataCache c1 !! a = Some data) as Ha1.
  { subst c1. rewrite setData_lookup. cbn.
    by destruct (Z.ltb_spec t0 (tc0 - CACHE_DURATION c)); [lia|]. }
  assert (dataCache c2 !! a = Some data) as Ha2.
  { subst c2. cbn. apply map_lookup_filter_Some. split.
    - by rewrite lookup_insert_ne.
    - cbn -[heap_get heap_set]. rewrite heap_get_set_eq. cbn.
      apply Z.ltb_ge. lia. }
  split; [done|]. split; [done|]. intros t Ht.
  erewrite getData_hit; [done..|]. done.
Qed.

(** [clear] drops every entry of the three maps and keeps the
    duration: afterwards every read of every key, at any time, returns
    [null] and leaves the manager as it is. *)
Theorem clear_forgets_everything c h key now :
  CACHE_DURATION (clear c) = CACHE_DURATION c
  /\ getData now key h (clear c) = (None, clear c)
  /\ getMapInstance now key (clear c) = (None, clear c)
  /\ getVisualization now key (clear c) = (None, clear c).
Proof. done. Qed.

End CacheMoreFacts.

Lemma shared_object_shares_timestamp_witness :
  let h : Cache.heap := {[ 1%positive := {[ "rows" := 42 ]} ]} in
  let c : Cache.CacheManager unit unit := Cache.new in
  let h1 := (Cache.setData 0 0 "a" 1%positive h c).1 in
  let c1 := (Cache.setData 0 0 "a" 1%positive h c).2 in
  let h2 := (Cache.setData 200000 200000 "b" 1%positive h1 c1).1 in
  let c2 := (Cache.setData 200000 200000 "b" 1%positive h1 c1).2 in
  Cache.heap_get h2 1%positive "timestamp" = Some 200000
  /\ Cache.dataCache c2 !! "a" = Some 1%positive
  /\ forall t, t - 200000 < Cache.CACHE_DURATION c ->
       (Cache.getData t "a" h2 c2).1 = Some 1%positive.
Proof.
  intros h c.
  apply (shared_object_shares_timestamp h c "a" "b" 1%positive
           0 0 200000 200000).
  - discriminate.
  - vm_compute. discriminate.
  - vm_compute. discriminate.
Defined.

(** * More about the lazy loader *)

Section LoaderMoreFacts.
Import Loader.
Implicit Types (w : world) (name : string) (p : promise).

Lemma step_keeps_loaded a name w :
  name ∈ loadedModules (loader w) ->
  name ∈ loadedModules (loader (step a w))
  /\ fetched name (step a w) = fetched name w.
Proof.
  intros Hin. destruct a as [name'|p ok]; cbn.
  - unfold loadModule. destruct (decide _) as [?|Hnot]; [done|].
    destruct (loadingPromises (loader w) !! name'); [done|]. cbn.
    split; [done|]. unfold fetched. cbn. rewrite filter_app, length_app.
    rewrite filter_cons_False; [cbn; lia|]. intros ->. done.
  - unfold settle. destruct (awaiting w !! p); [|done]. cbn.
    split; [|done]. destruct ok; [|done]. apply elem_of_union. by right.
Qed.

(** X12: a loaded module stays loaded: through any later history of
    calls and settlements it remains in the loaded set, no further
    script load is started for it, and [loadModule] answers at once. *)
Theorem loaded_is_forever name acts : forall w,
  name ∈ loadedModules (loader w) ->
  name ∈ loadedModules (loader (run acts w))
  /\ fetched name (run acts w) = fetched name w
  /\ loadModule name (run acts w) = (Resolved, run acts w).
Proof.
  induction acts as [|a acts IH]; intros w Hin.
  - cbn. split; [done|]. split; [done|]. unfold loadModule.
    by destruct (decide _).
  - change (run (a :: acts) w) with (run acts (step a w)).
    destruct (step_keeps_loaded a name w Hin) as [Hin' Hf].
    destruct (IH (step a w) Hin') as (H1 & H2 & H3).
    split; [done|]. split; [congruence|done].
Qed.

(** X13: when a load succeeds its continuation records the module,
    clears the in-flight marker and stops awaiting; every later call
    for that name is answered at once and leaves the loader as it
    is. *)
Theorem successful_load_is_memoized p name w :
  awaiting w !! p = Some name ->
  let w' := settle p true w in
  name ∈ loadedModules (loader w')
  /\ loadingPromises (loader w') !! name = None
  /\ awaiting w' !! p = None
  /\ fetches w' = fetches w
  /\ forall n, loadMany n name w' = (replicate n Resolved, w').
Proof.
  intros Hp w'.
  assert (name ∈ loadedModules (loader w')) as Hin.
  { subst w'. unfold settle. rewrite Hp. cbn. apply elem_of_union.
    left. by apply elem_of_singleton. }
  split; [done|]. subst w'. unfold settle in *. rewrite Hp in *. cbn in *.
  split; [apply lookup_delete_eq|]. split; [apply lookup_delete_eq|].
  split; [done|]. intros n. by apply loadMany_loaded.
Qed.

Lemma step_accounted a w : consistent w -> accounted w -> accounted (step a w).
Proof.
  intros (Hmark & Hrank & _) (Hpromise & Hloaded).
  destruct a as [name|p ok]; cbn.
  - unfold loadModule. destruct (decide _); [done|].
    destruct (loadingPromises (loader w) !! name); [done|].
    split; cbn.
    + intros p name' Hp. destruct (decide (length (fetches w) = p)) as [<-|Hne].
      * rewrite lookup_insert_eq in Hp. injection Hp as <-.
        by rewrite lookup_app_r, Nat.sub_diag.
      * rewrite lookup_insert_ne in Hp by done.
        rewrite lookup_app_l by eauto. auto.
    + intros name' Hin. apply elem_of_app. left. auto.
  - unfold settle. destruct (awaiting w !! p) as [name|] eqn:Hp; [|done].
    split; cbn.
    + intros p' name' [_ Hp']%lookup_delete_Some. auto.
    + intros name' Hin. destruct ok; [|auto].
      apply elem_of_union in Hin as [->%elem_of_singleton|Hin]; [|auto].
      eapply list_elem_of_lookup_2. eauto.
Qed.

(** X14: in every state the loader can reach, the promise kept as the
    in-flight marker of a name is the promise of a script load started
    for that very name, and a name is in the loaded set only if a
    script load was started for it. *)
Theorem markers_and_loaded_are_accounted w :
  reachable w ->
  (forall name p, loadingPromises (loader w) !! name = Some p ->
                  fetches w !! p = Some name)
  /\ (forall name, name ∈ loadedModules (loader w) ->
                   (0 < fetched name w)%nat).
Proof.
  intros Hw.
  assert (consistent w /\ accounted w) as [Hc [Hpromise Hloaded]].
  { induction Hw as [|a w Hw [IHc IHa]].
    - split; [apply init_consistent|]. split; cbn; [done|set_solver].
    - split; [|by apply step_accounted].
      destruct a; cbn; auto using loadModule_consistent, settle_consistent. }
  split.
  - intros name p Hname. apply Hpromise. by apply Hc.
  - intros name Hin%Hloaded. unfold fetched.
    assert (name ∈ filter (fun n => n = name) (fetches w)) as Hf
      by by apply list_elem_of_filter.
    destruct (filter _ _); [by apply elem_of_nil in Hf|cbn; lia].
Qed.

(** [loadFeature] starts a script load for one of its four modules or
    for nothing. *)
Lemma loadFeature_cases featureName w :
  match feature_module featureName with
  | None =>
      loadFeature featureName w
      = (FeatureUnknown ("Unknown feature: " +:+ featureName), w)
  | Some m =>
      m ∈ ["mapbox-gl-geocoder"; "mapbox-gl-draw"; "map-timeline";
           "map-ai-analysis"]
      /\ loadFeature featureName w
         = (FeatureLoad (loadModule m w).1, (loadModule m w).2)
  end.
Proof.
  unfold loadFeature.
  destruct (feature_module featureName) as [m|] eqn:Hm; [|done].
  split.
  - unfold feature_module in Hm.
    repeat (destruct (decide _) in Hm; [injection Hm as <-; set_solver|]).
    done.
  - by destruct (loadModule m w).
Qed.

Lemma loadModule_fetched m name w :
  let w' := (loadModule m w).2 in
  (name ∈ loadedModules (loader w) -> name ∈ loadedModules (loader w'))
  /\ (is_Some (loadingPromises (loader w) !! name) ->
      is_Some (loadingPromises (loader w') !! name))
  /\ (fetched name w' = fetched name w
      \/ m = name
         /\ (name ∉ loadedModules (loader w))
         /\ loadingPromises (loader w) !! name = None
         /\ is_Some (loadingPromises (loader w') !! name)
         /\ fetched name w' = S (fetched name w)).
Proof.
  cbv zeta. unfold loadModule. destruct (decide _) as [?|Hnot]; [by auto|].
  destruct (loadingPromises (loader w) !! m) eqn:Hm; [by auto|]. cbn.
  split; [done|]. split.
  - intros [p Hp]. destruct (decide (m = name)) as [->|Hne]; [congruence|].
    rewrite lookup_insert_ne by done. eauto.
  - unfold fetched. cbn. rewrite filter_app, length_app.
    destruct (decide (m = name)) as [->|Hne].
    + right. rewrite filter_cons_True by done. cbn.
      rewrite lookup_insert_eq. repeat split; [done..|eauto|lia].
    + left. rewrite filter_cons_False by done. cbn. lia.
Qed.

Lemma loadFeatures_fetched name fs : forall w,
  (name ∈ loadedModules (loader w)
   \/ is_Some (loadingPromises (loader w) !! name) ->
   fetched name (loadFeatures fs w) = fetched name w)
  /\ (fetched name (loadFeatures fs w) <= S (fetched name w))%nat
  /\ (name ∉ ["mapbox-gl-geocoder"; "mapbox-gl-draw"; "map-timeline";
              "map-ai-analysis"] ->
      fetched name (loadFeatures fs w) = fetched name w).
Proof.
  induction fs as [|f fs IH]; intros w; [cbn; by auto with lia|].
  change (loadFeatures (f :: fs) w)
    with (loadFeatures fs (loadFeature f w).2).
  pose proof (loadFeature_cases f w) as Hcase.
  destruct (feature_module f) as [m|]; [|rewrite Hcase; apply IH].
  destruct Hcase as [Hm ->]. cbn [snd].
  destruct (loadModule_fetched m name w) as (Hl & Hk & Hf).
  destruct (IH (loadModule m w).2) as (IH1 & IH2 & IH3).
  split; [|split].
  - intros Hin. destruct Hf as [Hf|(_ & Hnl & Hnk & _)].
    + rewrite IH1, Hf; [done|]. destruct Hin; [left|right]; auto.
    + destruct Hin as [?|[? ?]]; [done|congruence].
  - destruct Hf as [Hf|(_ & _ & _ & Hmark & Hf)]; [lia|].
    rewrite IH1 by by right. lia.
  - intros Hnot. destruct Hf as [Hf|(-> & _)]; [|done].
    rewrite IH3, Hf; done.
Qed.

(** X15: a burst of [loadFeature] calls, for any feature names in any
    order and nothing settling in between, starts at most one script
    load per module, none for a module that is loaded or loading, and
    never one for a module outside the four the [switch] names. *)
Theorem feature_burst_is_single_flight name fs w :
  (fetched name (loadFeatures fs w) <= S (fetched name w))%nat
  /\ (name ∈ loadedModules (loader w)
      \/ is_Some (loadingPromises (loader w) !! name) ->
      fetched name (loadFeatures fs w) = fetched name w)
  /\ (name ∉ ["mapbox-gl-geocoder"; "mapbox-gl-draw"; "map-timeline";
              "map-ai-analysis"] ->
      fetched name (loadFeatures fs w) = fetched name w).
Proof.
  destruct (loadFeatures_fetched name fs w) as (H1 & H2 & H3). auto.
Qed.

End LoaderMoreFacts.

Lemma loaded_is_forever_witness :
  let w := Loader.settle 0%nat true (Loader.step (Loader.Load "x") Loader.init) in
  let acts := [Loader.Load "x"; Loader.Load "y"; Loader.Settle 1%nat false;
               Loader.Load "x"] in
  "x" ∈ Loader.loadedModules (Loader.loader (Loader.run acts w))
  /\ Loader.fetched "x" (Loader.run acts w) = Loader.fetched "x" w
  /\ Loader.loadModule "x" (Loader.run acts w)
     = (Loader.Resolved, Loader.run acts w).
Proof.
  intros w acts. apply (loaded_is_forever "x" acts w).
  vm_compute. reflexivity.
Defined.

Lemma successful_load_is_memoized_witness :
  let w := Loader.step (Loader.Load "x") Loader.init in
  let w' := Loader.settle 0%nat true w in
  "x" ∈ Loader.loadedModules (Loader.loader w')
  /\ Loader.loadingPromises (Loader.loader w') !! "x" = None
  /\ Loader.awaiting w' !! 0%nat = None
  /\ Loader.fetches w' = Loader.fetches w
  /\ forall n, Loader.loadMany n "x" w' = (replicate n Loader.Resolved, w').
Proof.
  intros w.
  apply (successful_load_is_memoized 0%nat "x" w). reflexivity.
Defined.

Lemma markers_and_loaded_are_accounted_witness :
  let w := Loader.settle 0%nat true (Loader.step (Loader.Load "x") Loader.init) in
  (forall name p,
     Loader.loadingPromises (Loader.loader w) !! name = Some p ->
     Loader.fetches w !! p = Some name)
  /\ (forall name, name ∈ Loader.loadedModules (Loader.loader w) ->
                   (0 < Loader.fetched name w)%nat).
Proof.
  intros w. apply (markers_and_loaded_are_accounted w).
  apply (Loader.reachable_step (Loader.Settle 0%nat true)).
  apply (Loader.reachable_step (Loader.Load "x")).
  apply Loader.reachable_init.
Defined.

(** * Facts about the performance monitor *)

Section MonitorFacts.
Import Monitor.
Implicit Types (w : host) (this : PerformanceMonitor).

Lemma round_nonneg (x : Q) : (0 <= x)%Q -> 0 <= round x.
Proof.
  intros Hx. unfold round.
  change 0 with (Qfloor 0). apply Qfloor_resp_le. lra.
Qed.

Lemma round_Z (z : Z) : round (inject_Z z) = z.
Proof.
  unfold round, Qfloor, Qplus, inject_Z. cbn.
  rewrite Z.mul_1_r. replace (z * 2 + 1) with (1 + z * 2) by lia.
  rewrite Z.div_add by lia. done.
Qed.

Lemma round_mono (x y : Q) : (x <= y)%Q -> round x <= round y.
Proof. intros Hxy. unfold round. apply Qfloor_resp_le. lra. Qed.

Lemma monitorFPS_bounded now w :
  bounded (monitor w) -> bounded (monitor (monitorFPS now w)).
Proof.
  intros (Hlen & Hall & Hfc). unfold monitorFPS.
  destruct (isMonitoring (monitor w)); [|done].
  cbn [negb monitor].
  destruct (Qle_bool 1000 (now - lastTime (monitor w))) eqn:Hsec;
    [|repeat split; cbn; [done..|lia]].
  apply Qle_bool_iff in Hsec.
  assert (0 <= round (inject_Z (frameCount (monitor w) + 1) * 1000
                      / (now - lastTime (monitor w)))) as Hfps.
  { apply round_nonneg. apply Qmult_le_0_compat.
    - apply Qmult_le_0_compat; [|done].
      change 0%Q with (inject_Z 0). rewrite <- Zle_Qle. lia.
    - apply Qinv_le_0_compat. lra. }
  repeat split; cbn [fpsHistory frameCount]; [| |done].
  - destruct (_ <? _)%nat eqn:Hcmp.
    + rewrite length_drop, length_app. cbn. lia.
    + by apply Nat.ltb_ge in Hcmp.
  - assert (Forall (fun sample => 0 <= sample)
              (fpsHistory (monitor w) ++
               [round (inject_Z (frameCount (monitor w) + 1) * 1000
                       / (now - lastTime (monitor w)))])) as Hpushed
      by (apply Forall_app; split; [done|by constructor]).
    destruct (_ <? _)%nat; [by apply Forall_drop|done].
Qed.

Lemma step_bounded a w : bounded (monitor w) -> bounded (monitor (step a w)).
Proof.
  intros Hb. destruct a as [now has_memory| |now|used]; cbn.
  - unfold startMonitoring. destruct (isMonitoring (monitor w)); [done|].
    unfold log, monitorMemory. set (w0 := monitorFPS now _).
    assert (bounded (monitor w0)) as Hb'
      by (apply monitorFPS_bounded; exact Hb).
    by destruct (_ || _).
  - exact Hb.
  - unfold frame_fires. destruct (frames w); [done|].
    by apply monitorFPS_bounded.
  - unfold timer_fires. by destruct (timers w).
Qed.

(** X16: the frame-rate history is a bounded ring.  Through every
    history of starts, stops, animation frames and timer ticks it holds
    at most sixty samples and no negative one; a sample pushed onto a
    full history drops the oldest. *)
Theorem fps_history_is_bounded (now0 : Q) acts :
  let this := monitor (run acts (boot now0)) in
  (length (fpsHistory this) <= 60)%nat
  /\ Forall (fun sample => 0 <= sample) (fpsHistory this)
  /\ forall now w,
       isMonitoring (monitor w) = true ->
       (1000 <= now - lastTime (monitor w))%Q ->
       length (fpsHistory (monitor w)) = 60%nat ->
       exists sample,
         fpsHistory (monitor (monitorFPS now w))
         = drop 1 (fpsHistory (monitor w)) ++ [sample]
         /\ fps (monitor (monitorFPS now w)) = sample.
Proof.
  cbv zeta.
  assert (forall w, bounded (monitor w) -> bounded (monitor (run acts w)))
    as Hrun.
  { induction acts as [|a acts IH]; intros w Hb; [done|].
    apply (IH (step a w)). by apply step_bounded. }
  destruct (Hrun (boot now0)) as (Hlen & Hall & _).
  { repeat split; cbn; [lia|constructor|lia]. }
  split; [done|]. split; [done|].
  intros now w Hon Hsec Hfull. unfold monitorFPS. rewrite Hon. cbn.
  apply Qle_bool_iff in Hsec. rewrite Hsec. cbn.
  rewrite length_app, Hfull. cbn. eexists. split; [|done].
  destruct (fpsHistory (monitor w)); [done|]. done.
Qed.

Lemma sum_bounds (lo hi : Z) (l : list Z) :
  Forall (fun x => lo <= x <= hi) l ->
  Z.of_nat (length l) * lo <= sum l <= Z.of_nat (length l) * hi.
Proof.
  induction 1 as [|x l Hx _ IH]; cbn [sum foldr length]; [lia|].
  fold (sum l). lia.
Qed.

(** X17: the average that [getMetrics] reports is 0 when no sample is
    retained, and otherwise lies between the smallest and the largest
    retained sample. *)
Theorem average_is_between_extremes this (lo hi : Z) :
  (fpsHistory this = [] -> avgFps (getMetrics this) = 0)
  /\ (fpsHistory this <> [] ->
      Forall (fun x => lo <= x <= hi) (fpsHistory this) ->
      lo <= avgFps (getMetrics this) <= hi).
Proof.
  split; [intros Hnil; unfold getMetrics; cbn [avgFps]; by rewrite Hnil|].
  intros Hne Hall.
  pose proof (sum_bounds lo hi _ Hall) as [Hlo Hhi].
  assert (0 < length (fpsHistory this))%nat as Hlen
    by (destruct (fpsHistory this); [done|cbn; lia]).
  unfold getMetrics. cbn [avgFps].
  rewrite (proj2 (Nat.ltb_lt _ _) Hlen).
  set (n := Z.of_nat (length (fpsHistory this))) in *.
  assert (0 < n) as Hn by lia.
  assert (0 < inject_Z n)%Q as Hnq
    by (change 0%Q with (inject_Z 0); by rewrite <- Zlt_Qlt).
  split.
  - rewrite <- (round_Z lo). apply round_mono.
    apply Qle_shift_div_l; [done|].
    rewrite <- inject_Z_mult, <- Zle_Qle. lia.
  - rewrite <- (round_Z hi). apply round_mono.
    apply Qle_shift_div_r; [done|].
    rewrite <- inject_Z_mult, <- Zle_Qle. lia.
Qed.

Lemma frame_fires_running now w :
  isMonitoring (monitor w) = true -> (0 < frames w)%nat ->
  frames (frame_fires now w) = frames w
  /\ isMonitoring (monitor (frame_fires now w)) = true.
Proof.
  intros Hon Hpos. unfold frame_fires.
  destruct (frames w) as [|n] eqn:Hn; [lia|].
  unfold monitorFPS. cbn. rewrite Hon. cbn.
  split; [done|]. by destruct (Qle_bool _ _).
Qed.

Lemma frames_keep_running nows : forall w,
  isMonitoring (monitor w) = true -> (0 < frames w)%nat ->
  frames (run (Frame <$> nows) w) = frames w
  /\ isMonitoring (monitor (run (Frame <$> nows) w)) = true.
Proof.
  induction nows as [|t nows IH]; intros w Hon Hpos; [done|].
  change (run (Frame <$> t :: nows) w)
    with (run (Frame <$> nows) (frame_fires t w)).
  destruct (frame_fires_running t w Hon Hpos) as [Hf Hon'].
  rewrite <- Hf. apply IH; [done|lia].
Qed.

(** X18: [stopMonitoring] cancels nothing, it only clears the flag.  A
    pending frame callback that runs while the flag is clear does
    nothing and does not reschedule itself; but [startMonitoring]
    before it has run adds a loop of its own, and from then on every
    callback reschedules itself: the number of sampling loops is one
    more than the callbacks that were still pending, for as long as the
    monitor runs. *)
Theorem restart_adds_a_sampling_loop now has_memory w :
  isMonitoring (monitor w) = false ->
  (forall now', frame_fires now' w
                = {| monitor := monitor w; frames := Nat.pred (frames w);
                     timers := timers w; console := console w |})
  /\ frames (stopMonitoring w) = frames w
  /\ let w' := startMonitoring now has_memory w in
     frames w' = S (frames w)
     /\ forall nows,
          frames (run (Frame <$> nows) w') = S (frames w)
          /\ isMonitoring (monitor (run (Frame <$> nows) w')) = true.
Proof.
  intros Hoff. split; [|split; [done|]].
  - intros now'. unfold frame_fires, monitorFPS.
    destruct w as [this pending intervals out]. cbn in *.
    destruct pending; cbn; by rewrite ?Hoff.
  - cbv zeta.
    assert (frames (startMonitoring now has_memory w) = S (frames w)
            /\ isMonitoring (monitor (startMonitoring now has_memory w)) = true)
      as [Hframes Hon].
    { unfold startMonitoring. rewrite Hoff. unfold monitorMemory, monitorFPS.
      cbn. destruct (Qle_bool _ _); by destruct has_memory. }
    split; [done|]. intros nows. rewrite <- Hframes.
    apply frames_keep_running; [done|lia].
Qed.

(** X19: the memory timer outlives the monitor.  No action ever
    removes an interval, each [startMonitoring] that takes effect on a
    host with [performance.memory] adds one, and an interval that fires
    after [stopMonitoring] still overwrites the memory metric. *)
Theorem memory_timers_are_never_cleared a w :
  (timers w <= timers (step a w))%nat
  /\ timers (stopMonitoring w) = timers w
  /\ (isMonitoring (monitor w) = false ->
      forall now, timers (startMonitoring now true w) = S (timers w))
  /\ ((0 < timers w)%nat ->
      forall used,
        memory (monitor (timer_fires used (stopMonitoring w)))
        = round (inject_Z used / 1024 / 1024)).
Proof.
  split; [|split; [done|split]].
  - destruct a as [now has_memory| |now|used]; cbn.
    + unfold startMonitoring, monitorMemory, monitorFPS.
      destruct (isMonitoring (monitor w)); [done|]. cbn.
      destruct (Qle_bool _ _); destruct has_memory; cbn; lia.
    + done.
    + unfold frame_fires, monitorFPS. destruct (frames w); [done|].
      cbn [monitor]. destruct (isMonitoring (monitor w)); cbn [negb timers]; lia.
    + unfold timer_fires.
      destruct (timers w) eqn:Ht; cbn [timers with_monitor]; rewrite ?Ht; lia.
  - intros Hoff now. unfold startMonitoring, monitorMemory, monitorFPS.
    rewrite Hoff. cbn. by destruct (Qle_bool _ _).
  - intros Hpos used. unfold timer_fires. cbn.
    destruct (timers w); [lia|done].
Qed.

End MonitorFacts.

Lemma average_is_between_extremes_witness :
  let this :=
    {| Monitor.fps := 58; Monitor.memory := 0; Monitor.loadTime := 0;
       Monitor.renderTime := 0; Monitor.frameCount := 0;
       Monitor.lastTime := 0; Monitor.fpsHistory := [58; 60; 59];
       Monitor.isMonitoring := true |} in
  (Monitor.fpsHistory this = [] -> Monitor.avgFps (Monitor.getMetrics this) = 0)
  /\ (Monitor.fpsHistory this <> [] ->
      Forall (fun x => 58 <= x <= 60) (Monitor.fpsHistory this) ->
      58 <= Monitor.avgFps (Monitor.getMetrics this) <= 60).
Proof.
  intros this. apply (average_is_between_extremes this 58 60).
Defined.

Lemma restart_adds_a_sampling_loop_witness :
  let w := Monitor.stopMonitoring
             (Monitor.startMonitoring 0 true (Monitor.boot 0)) in
  (forall now', Monitor.frame_fires now' w
                = {| Monitor.monitor := Monitor.monitor w;
                     Monitor.frames := Nat.pred (Monitor.frames w);
                     Monitor.timers := Monitor.timers w;
                     Monitor.console := Monitor.console w |})
  /\ Monitor.frames (Monitor.stopMonitoring w) = Monitor.frames w
  /\ let w' := Monitor.startMonitoring 5 true w in
     Monitor.frames w' = S (Monitor.frames w)
     /\ forall nows,
          Monitor.frames (Monitor.run (Monitor.Frame <$> nows) w')
          = S (Monitor.frames w)
          /\ Monitor.isMonitoring
               (Monitor.monitor (Monitor.run (Monitor.Frame <$> nows) w'))
             = true.
Proof.
  intros w. apply (restart_adds_a_sampling_loop 5 true w). reflexivity.
Defined.

(** Start, stop and start again before the next frame: two callbacks
    are pending, and two intervals are running. *)
Example two_loops_after_restart :
  let w := Monitor.startMonitoring 5 true
             (Monitor.stopMonitoring
                (Monitor.startMonitoring 0 true (Monitor.boot 0))) in
  Monitor.frames w = 2%nat /\ Monitor.timers w = 2%nat.
Proof. split; reflexivity. Qed.

(** * More about the renderer *)

Section RenderMoreFacts.
Import Renderer.
Context {M O : Type} {backend : MapBackend M} {opts : RenderOptions O}.
Implicit Types (r : OptimizedMapRenderer M) (e : effect).
Local Abbreviation stmt := (@action M).

Lemma getVisualization_hit now key (c : Cache.CacheManager unit visualization) v :
  (Cache.getVisualization now key c).1 = Some v ->
  (Cache.getVisualization now key c).2 = c.
Proof.
  unfold Cache.getVisualization.
  destruct (Cache.visualizationCache c !! key); [|done].
  by destruct (Cache.fresh _ _ _).
Qed.

Lemma cache_get_hit now key r v :
  (Cache.getVisualization now key (cacheManager r)).1 = Some v ->
  cache_get (M := M) now key r = (Normal (Some v), r).
Proof.
  intros Hhit. rewrite cache_get_unfold, Hhit.
  rewrite (getVisualization_hit _ _ _ _ Hhit). by destruct r.
Qed.

(** X20: on a cache hit a render method looks neither at the points
    nor at the map.  It writes one console line and returns; no source
    and no layer is added, also when the map holds none, and the
    renderer is otherwise as before. *)
Theorem cache_hit_only_logs (fuel : nat) now now' rnd act points (options : O)
    r v :
  ((Cache.getVisualization now ("markers_" +:+ stringify options)
      (cacheManager r)).1 = Some v ->
   renderMarkers now now' rnd act points options r
   = (Normal tt,
      logged r (ConsoleLog ("Applying cached visualization: " +:+ viz_type v)
                  [])))
  /\ ((Cache.getVisualization now ("clusters_" +:+ stringify options)
         (cacheManager r)).1 = Some v ->
      renderClusters now now' rnd act points options r
      = (Normal tt,
         logged r (ConsoleLog ("Applying cached visualization: " +:+ viz_type v)
                     [])))
  /\ ((Cache.getVisualization now ("heatmap_" +:+ stringify options)
         (cacheManager r)).1 = Some v ->
      renderHeatmap fuel now now' points options r
      = Some (Normal tt,
              logged r (ConsoleLog
                          ("Applying cached visualization: " +:+ viz_type v)
                          []))).
Proof.
  split; [|split]; intros Hhit.
  - unfold renderMarkers. cbv zeta.
    by rewrite bind_unfold, (cache_get_hit _ _ _ _ Hhit).
  - unfold renderClusters. cbv zeta.
    by rewrite bind_unfold, (cache_get_hit _ _ _ _ Hhit).
  - unfold renderHeatmap. cbv zeta.
    by rewrite (cache_get_hit _ _ _ _ Hhit).
Qed.

(** *** Statements that leave cache and layers alone *)

Lemma steady_ret : steady (M := M) (ret tt).
Proof. by intros r Hr. Qed.

Lemma steady_emit e : steady (M := M) (emit e).
Proof. by intros r Hr. Qed.

Lemma steady_removeLayer id : steady (M := M) (_removeLayer id).
Proof.
  intros r [m Hm]. unfold _removeLayer.
  rewrite (bind_normal get _ r r r) by done. cbn beta. rewrite Hm.
  destruct (getLayer id m); [|by cbn; rewrite Hm].
  rewrite bind_unfold. cbn [emit].
  destruct (removeLayer id m) as [[err|] m']; by cbn.
Qed.

Lemma steady_removeSource id : steady (M := M) (_removeSource id).
Proof.
  intros r [m Hm]. unfold _removeSource.
  rewrite (bind_normal get _ r r r) by done. cbn beta. rewrite Hm.
  destruct (getSource id m); [|by cbn; rewrite Hm].
  rewrite bind_unfold. cbn [emit].
  destruct (removeSource id m) as [[err|] m']; by cbn.
Qed.

Lemma steady_addSource id src :
  (forall id src m, (addSource id src m).1 = None) ->
  steady (M := M) (map_addSource id src).
Proof.
  intros Hok r [m Hm]. unfold map_addSource.
  rewrite (bind_normal get _ r r r) by done. cbn beta. rewrite Hm.
  rewrite bind_unfold. cbn [emit].
  pose proof (Hok id src m) as Ha.
  destruct (addSource id src m) as [o m']. cbn in Ha. subst o. by cbn.
Qed.

(** After [this.map.addLayer(l)] on an accepting map the renderer holds
    the map the call returned. *)
Lemma addLayer_accepted (l : layer) r m :
  (forall l m, (addLayer l m).1 = None) ->
  map r = Some m ->
  (map_addLayer l r).1 = Normal tt
  /\ map (map_addLayer l r).2 = Some (addLayer l m).2
  /\ cacheManager (map_addLayer l r).2 = cacheManager r
  /\ layers (map_addLayer l r).2 = layers r.
Proof.
  intros Hok Hm. unfold map_addLayer.
  rewrite (bind_normal get _ r r r) by done. cbn beta. rewrite Hm.
  rewrite bind_unfold. cbn [emit].
  pose proof (Hok l m) as Ha.
  destruct (addLayer l m) as [o m']. cbn in Ha. subst o. by cbn.
Qed.

Lemma steady_addLayer l :
  (forall l m, (addLayer l m).1 = None) ->
  steady (M := M) (map_addLayer l).
Proof.
  intros Hok r [m Hm].
  destruct (addLayer_accepted l r m Hok Hm) as (H1 & H2 & H3 & H4).
  rewrite H2. eauto.
Qed.

Lemma steady_then {B} (a : stmt unit) (k : unit -> stmt B)
    (Q : completion exn B * OptimizedMapRenderer M -> Prop) r :
  steady a -> is_Some (map r) ->
  (forall r', is_Some (map r') -> cacheManager r' = cacheManager r ->
              layers r' = layers r -> Q (k tt r')) ->
  Q ((a ≫= k) r).
Proof.
  intros Ha Hr Hk. rewrite bind_unfold.
  destruct (Ha r Hr) as (Hn & Hs & Hc & Hl).
  destruct (a r) as [c r']. cbn in *. subst c. by apply Hk.
Qed.

Lemma cache_set_unfold now key v r :
  cache_set (M := M) now key v r
  = (Normal tt,
     {| map := map r; layers := layers r;
        cacheManager := Cache.setVisualization now key v (cacheManager r);
        batchProcessor := batchProcessor r; trace := trace r |}).
Proof. done. Qed.

(** On a map that accepts sources and layers the body of
    [renderMarkers] completes and has cached its descriptor. *)
Lemma markers_body_accepted now rnd act key (pts : list point) (options : O) r :
  is_Some (map r) ->
  (forall id src m, (addSource id src m).1 = None) ->
  (forall l m, (addLayer l m).1 = None) ->
  let done := renderMarkers_body now rnd act key (Some <$> pts) options r in
  done.1 = Normal tt
  /\ cacheManager done.2
     = Cache.setVisualization now key
         (Viz "markers-source" "markers-layer" "markers") (cacheManager r)
  /\ layers done.2 = layers r
  /\ is_Some (map done.2).
Proof.
  intros Hr Hsrc Hlay. cbv zeta. unfold renderMarkers_body. cbv zeta.
  rewrite display_points.
  set (Q := fun res : completion exn unit * OptimizedMapRenderer M =>
              res.1 = Normal tt
              /\ cacheManager res.2
                 = Cache.setVisualization now key
                     (Viz "markers-source" "markers-layer" "markers")
                     (cacheManager r)
              /\ layers res.2 = layers r
              /\ is_Some (map res.2)).
  apply (steady_then _ _ Q); [|done|].
  { destruct (_ <? _)%nat; [apply steady_emit|apply steady_ret]. }
  intros r1 Hr1 Hc1 Hl1.
  apply (steady_then _ _ Q); [apply steady_removeLayer|done|].
  intros r2 Hr2 Hc2 Hl2.
  apply (steady_then _ _ Q); [apply steady_removeSource|done|].
  intros r3 Hr3 Hc3 Hl3.
  erewrite bind_normal; [|unfold lift; by rewrite mapPoints_all].
  apply (steady_then _ _ Q); [by apply steady_addSource|done|].
  intros r4 Hr4 Hc4 Hl4.
  apply (steady_then _ _ Q); [by apply steady_addLayer|done|].
  intros r5 Hr5 Hc5 Hl5.
  subst Q. rewrite bind_unfold, cache_set_unfold. cbn.
  repeat split; [|congruence|done].
  f_equal. congruence.
Qed.

(** X21: rendering markers twice with the same options renders once.
    On a map that accepts the source and the layer the first call
    caches its descriptor; a second call, made before the duration has
    passed since then, is a cache hit whatever points it is given: it
    adds one console line and nothing else. *)
Theorem second_render_is_a_cache_hit now now' now2 now2' rnd act rnd' act'
    (pts : list point) points' (options : O) r :
  is_Some (map r) ->
  (forall id src m, (addSource id src m).1 = None) ->
  (forall l m, (addLayer l m).1 = None) ->
  (Cache.getVisualization now ("markers_" +:+ stringify options)
     (cacheManager r)).1 = None ->
  now2 - now' < Cache.CACHE_DURATION (cacheManager r) ->
  let first := renderMarkers now now' rnd act (Some <$> pts) options r in
  first.1 = Normal tt
  /\ renderMarkers now2 now2' rnd' act' points' options first.2
     = (Normal tt,
        logged first.2
          (ConsoleLog "Applying cached visualization: markers" [])).
Proof.
  intros Hr Hsrc Hlay Hmiss Hfresh first.
  set (key := "markers_" +:+ stringify options) in *.
  assert (first.1 = Normal tt
          /\ cacheManager first.2
             = Cache.setVisualization now' key
                 (Viz "markers-source" "markers-layer" "markers")
                 (Cache.getVisualization now key (cacheManager r)).2)
    as [Hok Hcache].
  { subst first. unfold renderMarkers. cbv zeta. fold key.
    rewrite bind_unfold, cache_get_unfold, Hmiss. unfold try_catch.
    match goal with
    | |- context [renderMarkers_body now' rnd act key _ options ?r0] =>
        destruct (markers_body_accepted now' rnd act key pts options r0)
          as (Hn & Hc & _); [done..|]
    end.
    destruct (renderMarkers_body _ _ _ _ _ _ _) as [c r']. cbn in Hn, Hc.
    subst c. by cbn. }
  split; [done|].
  assert ((Cache.getVisualization now2 key (cacheManager first.2)).1
          = Some (Viz "markers-source" "markers-layer" "markers")) as Hhit.
  { rewrite Hcache, visualization_round_trip.
    assert (Cache.CACHE_DURATION
              (Cache.getVisualization now key (cacheManager r)).2
            = Cache.CACHE_DURATION (cacheManager r)) as ->.
    { unfold Cache.getVisualization.
      destruct (Cache.visualizationCache _ !! _); [|done].
      by destruct (Cache.fresh _ _ _). }
    by destruct (Z.ltb_spec (now2 - now') (Cache.CACHE_DURATION (cacheManager r)));
      [|lia]. }
  unfold renderMarkers at 1. cbv zeta. fold key.
  by rewrite bind_unfold, (cache_get_hit _ _ _ _ Hhit).
Qed.

Lemma removeLayer_no_map id r :
  map r = None -> _removeLayer id r = (Normal tt, r).
Proof.
  intros Hm. unfold _removeLayer.
  rewrite (bind_normal get _ r r r) by done. cbn beta. by rewrite Hm.
Qed.

Lemma removeSource_no_map id r :
  map r = None -> _removeSource id r = (Normal tt, r).
Proof.
  intros Hm. unfold _removeSource.
  rewrite (bind_normal get _ r r r) by done. cbn beta. by rewrite Hm.
Qed.

Lemma addSource_no_map id src r :
  map r = None ->
  map_addSource id src r
  = (Throw (TypeError "Cannot read properties of null (reading 'addSource')"),
     r).
Proof.
  intros Hm. unfold map_addSource.
  rewrite (bind_normal get _ r r r) by done. cbn beta. by rewrite Hm.
Qed.

Lemma markers_body_no_map now rnd act key (pts : list point) (options : O) r :
  map r = None ->
  exists r' t,
    renderMarkers_body now rnd act key (Some <$> pts) options r
    = (Throw (TypeError "Cannot read properties of null (reading 'addSource')"),
       r')
    /\ map r' = None
    /\ cacheManager r' = cacheManager r
    /\ trace r' = trace r ++ t
    /\ Forall (fun e => adds_to_map e = false) t.
Proof.
  intros Hm. unfold renderMarkers_body. cbv zeta. rewrite display_points.
  assert (forall r0, map r0 = None ->
            (_removeLayer "markers-layer" ;;
             _removeSource "markers-source" ;;
             features ← lift (mapPoints (markerFeature act) 0
                                (Some <$> take (maxPoints_or options 5000) pts));
             map_addSource "markers-source"
               {| features := features; cluster := false |} ;;
             map_addLayer {| layer_id := "markers-layer";
                             layer_type := "circle";
                             layer_source := "markers-source" |} ;;
             cache_set now key (Viz "markers-source" "markers-layer" "markers") ;;
             emit (ConsoleLog "Markers rendered"
                     [length (Some <$> take (maxPoints_or options 5000) pts)]))
              r0
            = (Throw (TypeError
                        "Cannot read properties of null (reading 'addSource')"),
               r0)) as Hrest.
  { intros r0 Hm0.
    rewrite (bind_normal _ _ _ _ _ (removeLayer_no_map _ r0 Hm0)).
    rewrite (bind_normal _ _ _ _ _ (removeSource_no_map _ r0 Hm0)).
    erewrite bind_normal; [|unfold lift; by rewrite mapPoints_all].
    by rewrite (bind_throw _ _ _ _ _ (addSource_no_map _ _ r0 Hm0)). }
  rewrite bind_unfold. destruct (_ <? _)%nat; cbn [emit ret].
  - rewrite Hrest by done. eexists _, [_]. split; [done|].
    cbn. repeat split; [done|]. by repeat constructor.
  - rewrite Hrest by done. exists r, []. split; [done|].
    rewrite app_nil_r. repeat split; [done|constructor].
Qed.

(** X22: a render on a renderer whose map is not there, before
    [initialize] or after [dispose], raises nothing: the attempt to add
    the source fails on [null], the failure goes to
    [logPerformanceIssue], no call reaches a map, and nothing is
    cached. *)
Theorem render_without_map now now' rnd act (pts : list point) (options : O) r :
  map r = None ->
  (Cache.getVisualization now ("markers_" +:+ stringify options)
     (cacheManager r)).1 = None ->
  let after := renderMarkers now now' rnd act (Some <$> pts) options r in
  after.1 = Normal tt
  /\ map after.2 = None
  /\ Cache.visualizationCache (cacheManager after.2)
       !! ("markers_" +:+ stringify options) = None
  /\ exists t,
       trace after.2 = trace r ++ t
       /\ Forall (fun e => adds_to_map e = false) t
       /\ PerformanceIssue "Marker rendering failed"
            (TypeError "Cannot read properties of null (reading 'addSource')")
          ∈ t.
Proof.
  intros Hmap Hmiss. cbv zeta. unfold renderMarkers. cbv zeta.
  rewrite bind_unfold, cache_get_unfold, Hmiss. unfold try_catch.
  match goal with
  | |- context [renderMarkers_body now' rnd act ?key _ options ?r0] =>
      destruct (markers_body_no_map now' rnd act key pts options r0 Hmap)
        as (r' & t & -> & Hm' & Hc' & Ht' & Hquiet)
  end.
  rewrite report_normal. cbn in *.
  split; [done|]. split; [done|].
  split; [rewrite Hc'; by apply getVisualization_miss|].
  exists (t ++ [ConsoleError "Failed to render markers:"
                  (TypeError
                     "Cannot read properties of null (reading 'addSource')");
                PerformanceIssue "Marker rendering failed"
                  (TypeError
                     "Cannot read properties of null (reading 'addSource')")]).
  split; [rewrite Ht'; by rewrite <- !app_assoc|].
  split; [apply Forall_app; split; [done|by repeat constructor]|].
  apply elem_of_app. right. right. left.
Qed.

(** *** The heatmap *)

Lemma prepareHeatmapData_all (points : list (option point)) :
  Forall is_Some points ->
  _prepareHeatmapData points
  = Normal (omap (fun p => heatFeature <$> p) points).
Proof.
  unfold _prepareHeatmapData. generalize 0%nat.
  induction points as [|[p|] points IH]; intros i Hall; [done| |].
  - apply Forall_cons in Hall as [_ Hall]. cbn [mapPoints].
    by rewrite IH.
  - apply Forall_cons in Hall as [[? ?] _]. done.
Qed.

Lemma heat_features_of_points (pts : list point) :
  omap (fun p => heatFeature <$> p) (Some <$> pts) = heatFeature <$> pts.
Proof. induction pts as [|p pts IH]; [done|]. cbn. by rewrite IH. Qed.

Lemma heatmap_batch_all fuel this (pts : list point) :
  (length pts < fuel)%nat ->
  exists events,
    Batch.processLargeDataset fuel this (Some <$> pts) _prepareHeatmapData
    = Some (events, Normal (heatFeature <$> pts)).
Proof.
  intros Hf.
  destruct (processLargeDataset_on this (Some <$> pts)
              (omap (fun p => heatFeature <$> p)) _prepareHeatmapData
              is_Some fuel) as [events Hev].
  - done.
  - intros a b. apply omap_app.
  - apply prepareHeatmapData_all.
  - apply Forall_fmap, Forall_forall. intros p _. by eexists.
  - by rewrite length_fmap.
  - exists events. by rewrite Hev, heat_features_of_points.
Qed.

(** X23: the heatmap has no point cap.  On a cache miss every point of
    the input, in input order and whatever their number, becomes a
    feature of intensity 1 of the source handed to the map, which is
    clustered when there are more than 1,000 of them. *)
Theorem heatmap_shows_every_point (fuel : nat) now now' (pts : list point)
    (options : O) r :
  is_Some (map r) ->
  (Cache.getVisualization now ("heatmap_" +:+ stringify options)
     (cacheManager r)).1 = None ->
  (length pts < fuel)%nat ->
  exists res,
    renderHeatmap fuel now now' (Some <$> pts) options r = Some res
    /\ res.1 = Normal tt
    /\ CallAddSource "heatmap-source"
         {| features := heatFeature <$> pts;
            cluster := (1000 <? length pts)%nat |}
       ∈ trace res.2.
Proof.
  intros Hr Hmiss Hf. unfold renderHeatmap. cbv zeta.
  rewrite cache_get_unfold, Hmiss.
  match goal with
  | |- context [Batch.processLargeDataset fuel ?this _ _] =>
      destruct (heatmap_batch_all fuel this pts Hf) as [events ->]
  end.
  eexists. split; [done|]. split; [apply try_catch_report_normal|].
  apply try_catch_keeps_effect; [intros; apply appends_report|].
  rewrite bind_unfold. cbn [batch_outcome].
  rewrite <- (length_fmap heatFeature pts). by apply heatmap_rest_source.
Qed.

(** *** Clearing the layers *)

Lemma quiet_ret : quiet (M := M) (ret tt).
Proof.
  intros r. cbn. repeat split; [done..|]. exists [].
  by rewrite app_nil_r.
Qed.

Lemma quiet_removeLayer id : quiet (M := M) (_removeLayer id).
Proof.
  intros r. unfold _removeLayer.
  rewrite (bind_normal get _ r r r) by done. cbn beta.
  destruct (map r) as [m|] eqn:Hm;
    [|cbn; rewrite Hm; repeat split; [done..|]; exists [];
      by rewrite app_nil_r].
  destruct (getLayer id m).
  - rewrite bind_unfold. cbn [emit].
    destruct (removeLayer id m) as [[err|] m']; rewrite !bind_unfold; cbn;
      (repeat split; [eauto..|done|]); eexists;
      (split; [by rewrite <- ?app_assoc|by repeat constructor]).
  - cbn. rewrite Hm. repeat split; [eauto..|done|]. exists [].
    by rewrite app_nil_r.
Qed.

Lemma quiet_bind (a : stmt unit) (k : unit -> stmt unit) :
  quiet a -> (forall x, quiet (k x)) -> quiet (a ≫= k).
Proof.
  intros Ha Hk r. rewrite bind_unfold.
  destruct (Ha r) as (Hn & Hc & Hl & Hm & Hnone & t & Ht & Hq).
  destruct (a r) as [c r1]. cbn in *. subst c.
  destruct (Hk tt r1) as (Hn' & Hc' & Hl' & Hm' & Hnone' & t' & Ht' & Hq').
  split; [done|]. split; [congruence|]. split; [congruence|].
  split; [by rewrite Hm'|]. split.
  - intros Hr. specialize (Hnone Hr). subst r1. by apply Hnone'.
  - exists (t ++ t'). split; [by rewrite Ht', Ht, app_assoc|].
    by apply Forall_app.
Qed.

Lemma quiet_for_each {A} (f : A -> stmt unit) (l : list A) :
  (forall x, quiet (f x)) -> quiet (for_each f l).
Proof.
  intros Hf. induction l as [|x l IH]; [apply quiet_ret|].
  cbn [for_each]. apply quiet_bind; [apply Hf|by intros _].
Qed.

Lemma quiet_layer_loop (entries : list (string * visualization)) :
  quiet (M := M)
    (for_each
       (fun entry : string * visualization =>
          match entry.2 with
          | VizLayers _ layerIds _ => for_each _removeLayer layerIds
          | Viz _ _ _ => _removeLayer entry.1
          end) entries).
Proof.
  apply quiet_for_each. intros [layerId [? ? ?|? layerIds ?]]; cbn.
  - apply quiet_removeLayer.
  - apply quiet_for_each, quiet_removeLayer.
Qed.

(** X24: [clearVisualizationLayers] never raises and forgets every
    registered layer.  It only ever removes layers: no source and no
    layer is added, the cache is untouched, the map stays as
    initialized as it was, and without a map nothing is called at
    all. *)
Theorem clearing_layers_only_removes r :
  let after := clearVisualizationLayers r in
  after.1 = Normal tt
  /\ layers after.2 = ∅
  /\ cacheManager after.2 = cacheManager r
  /\ (is_Some (map after.2) <-> is_Some (map r))
  /\ (exists t, trace after.2 = trace r ++ t
                /\ Forall (fun e => adds_to_map e = false) t)
  /\ (map r = None -> trace after.2 = trace r).
Proof.
  cbv zeta. unfold clearVisualizationLayers.
  rewrite (bind_normal get _ r r r) by done. cbn beta.
  rewrite bind_unfold.
  destruct (quiet_layer_loop (map_to_list (layers r)) r)
    as (Hn & Hc & Hl & Hm & Hnone & t & Ht & Hq).
  destruct (for_each _ _ r) as [c r1]. cbn in *. subst c. cbn.
  repeat split; [done|apply Hm|apply Hm|eauto|].
  intros Hr. by rewrite (Hnone Hr).
Qed.


Lemma clear_no_map r :
  map r = None ->
  clearVisualizationLayers r
  = (Normal tt,
     {| map := None; layers := ∅; cacheManager := cacheManager r;
        batchProcessor := batchProcessor r; trace := trace r |}).
Proof.
  intros Hr. unfold clearVisualizationLayers.
  rewrite (bind_normal get _ r r r) by done. cbn beta. rewrite bind_unfold.
  destruct (quiet_layer_loop (map_to_list (layers r)) r)
    as (Hn & _ & _ & _ & Hnone & _).
  destruct (for_each _ _ r) as [c r1]. cbn in Hn, Hnone. subst c.
  rewrite (Hnone Hr). unfold set_layers. by rewrite Hr.
Qed.



End RenderMoreFacts.

(** * The renderer with its monitor *)

Section AppFacts.
Import Renderer App.
Context {M O : Type} {backend : MapBackend M} {opts : RenderOptions O}.
Implicit Types (a : app M).


Lemma dispose_when_remove_fails (remove : M -> option exn) a m e :
  map (core a) = Some m -> remove m = Some e ->
  dispose remove a = (Throw e, a).
Proof. intros Hm He. unfold dispose. by rewrite Hm, He. Qed.

Lemma dispose_result (remove : M -> option exn) a :
  (forall m, map (core a) = Some m -> remove m = None) ->
  dispose remove a
  = (Normal tt,
     {| core :=
          {| map := None; layers := ∅;
             cacheManager := Cache.clear (cacheManager (core a));
             batchProcessor := batchProcessor (core a);
             trace := trace (core a) |};
        performanceMonitor :=
          Monitor.stopMonitoring (performanceMonitor a) |}).
Proof.
  intros Hremove. unfold dispose.
  destruct (map (core a)) as [m|] eqn:Hm.
  - rewrite (Hremove m eq_refl). by rewrite clear_no_map.
  - by rewrite (clear_no_map _ Hm).
Qed.

(** X26: when [this.map.remove()] does not raise, [dispose] leaves a
    renderer without map, without registered layers and with three
    empty caches, and a monitor that is stopped; the map being gone
    before the layers are cleared, no call reaches it.  A second
    [dispose] returns normally and leaves the renderer as the first
    left it. *)
Theorem dispose_leaves_nothing (remove : M -> option exn) a :
  (forall m, map (core a) = Some m -> remove m = None) ->
  let d := dispose remove a in
  d.1 = Normal tt
  /\ map (core d.2) = None
  /\ layers (core d.2) = ∅
  /\ cacheManager (core d.2) = Cache.clear (cacheManager (core a))
  /\ trace (core d.2) = trace (core a)
  /\ Monitor.isMonitoring (Monitor.monitor (performanceMonitor d.2)) = false
  /\ (dispose remove d.2).1 = Normal tt
  /\ core (dispose remove d.2).2 = core d.2.
Proof.
  intros Hremove. cbv zeta. rewrite (dispose_result remove a Hremove).
  cbn [fst snd core performanceMonitor map layers cacheManager trace].
  rewrite dispose_result by (intros m; discriminate).
  repeat split.
Qed.

End AppFacts.


Lemma second_render_is_a_cache_hit_witness :
  let r := Renderer.fresh_renderer (Some tt) in
  let first :=
    Renderer.renderMarkers (backend := Renderer.accepting) 0 5
      (fun _ => 0%nat) (fun _ => 1%nat) (Some <$> [Renderer.mumbai])
      (None : option nat) r in
  first.1 = Normal tt
  /\ Renderer.renderMarkers (backend := Renderer.accepting) 1000 1005
       (fun _ => 0%nat) (fun _ => 7%nat) [None] (None : option nat) first.2
     = (Normal tt,
        Renderer.logged first.2
          (Renderer.ConsoleLog "Applying cached visualization: markers" [])).
Proof.
  intros r.
  apply (second_render_is_a_cache_hit (backend := Renderer.accepting)
           0 5 1000 1005 (fun _ => 0%nat) (fun _ => 1%nat)
           (fun _ => 0%nat) (fun _ => 7%nat) [Renderer.mumbai] [None]
           (None : option nat) r).
  - exists tt. reflexivity.
  - intros id src m. reflexivity.
  - intros l m. reflexivity.
  - vm_compute. reflexivity.
  - vm_compute. reflexivity.
Defined.

Lemma render_without_map_witness :
  let r : Renderer.OptimizedMapRenderer unit := Renderer.fresh_renderer None in
  let after :=
    Renderer.renderMarkers (backend := Renderer.accepting) 0 0
      (fun _ => 0%nat) (fun _ => 1%nat) (Some <$> [Renderer.mumbai])
      (None : option nat) r in
  after.1 = Normal tt
  /\ Renderer.map after.2 = None
  /\ Cache.visualizationCache (Renderer.cacheManager after.2)
       !! ("markers_" +:+ Renderer.stringify (None : option nat)) = None
  /\ exists t,
       Renderer.trace after.2 = Renderer.trace r ++ t
       /\ Forall (fun e => Renderer.adds_to_map e = false) t
       /\ Renderer.PerformanceIssue "Marker rendering failed"
            (Renderer.TypeError
               "Cannot read properties of null (reading 'addSource')")
          ∈ t.
Proof.
  intros r.
  apply (render_without_map (backend := Renderer.accepting) 0 0
           (fun _ => 0%nat) (fun _ => 1%nat) [Renderer.mumbai]
           (None : option nat) r).
  - reflexivity.
  - vm_compute. reflexivity.
Defined.

Lemma heatmap_shows_every_point_witness :
  let pts := [Renderer.mumbai; Renderer.off_the_globe] in
  exists res,
    Renderer.renderHeatmap (backend := Renderer.accepting) 3 0 0
      (Some <$> pts) (None : option nat) (Renderer.fresh_renderer (Some tt))
    = Some res
    /\ res.1 = Normal tt
    /\ Renderer.CallAddSource "heatmap-source"
         {| Renderer.features := Renderer.heatFeature <$> pts;
            Renderer.cluster := (1000 <? length pts)%nat |}
       ∈ Renderer.trace res.2.
Proof.
  intros pts.
  apply (heatmap_shows_every_point (backend := Renderer.accepting) 3 0 0 pts
           (None : option nat) (Renderer.fresh_renderer (Some tt))).
  - exists tt. reflexivity.
  - vm_compute. reflexivity.
  - simpl. lia.
Defined.


Lemma dispose_leaves_nothing_witness :
  let a : App.app unit :=
    {| App.core := Renderer.fresh_renderer (Some tt);
       App.performanceMonitor :=
         Monitor.startMonitoring 0 true (Monitor.boot 0) |} in
  let remove := fun _ : unit => @None Renderer.exn in
  let d := App.dispose (backend := Renderer.accepting) remove a in
  d.1 = Normal tt
  /\ Renderer.map (App.core d.2) = None
  /\ Renderer.layers (App.core d.2) = ∅
  /\ Renderer.cacheManager (App.core d.2)
     = Cache.clear (Renderer.cacheManager (App.core a))
  /\ Renderer.trace (App.core d.2) = Renderer.trace (App.core a)
  /\ Monitor.isMonitoring
       (Monitor.monitor (App.performanceMonitor d.2)) = false
  /\ (App.dispose (backend := Renderer.accepting) remove d.2).1 = Normal tt
  /\ App.core (App.dispose (backend := Renderer.accepting) remove d.2).2
     = App.core d.2.
Proof.
  intros a remove.
  apply (dispose_leaves_nothing (backend := Renderer.accepting) remove a).
  intros m Hm. reflexivity.
Defined.
